(** * arikawa: the state accessor layer and the guild pagination walker

    A shallow embedding of [state/state.go] (the read-through accessors of
    [State]), of the [Store] interface they are written against, and of the
    guild pagination of [api/guild.go], followed by the properties they
    satisfy.

    Conventions of the embedding.
    - A Go pointer [*T] is an [option T]: [None] is [nil].  Dereferencing
      [nil] and slicing out of range end the run with [Panic].
    - A Go [error] is an [option error]: [None] is [nil].
    - A Go slice is a [list]; the [nil] slice is [[]].
    - [uint] is taken to be 64 bits wide; it is a [Z] and the one
      subtraction performed on it is wrapped explicitly.
    - A method of [State] is a computation in a state monad over the
      record [state.State]; a method of [api.Client] is one over
      [api.Client]. *)

From Stdlib Require Import ZArith Lia.
From stdpp Require Import base option list strings gmap.

Local Open Scope Z_scope.

(** ** Outcomes and the state monad *)

Inductive outcome (A : Type) : Type :=
| Ok (a : A)
| Panic
| OutOfFuel.
Arguments Ok {A} a.
Arguments Panic {A}.
Arguments OutOfFuel {A}.

Definition ST (S A : Type) : Type := S → outcome (A * S).

#[global] Instance ST_ret {S} : MRet (ST S) := λ A a s, Ok (a, s).

#[global] Instance ST_bind {S} : MBind (ST S) := λ A B f m s,
  match m s with
  | Ok (a, s') => f a s'
  | Panic => Panic
  | OutOfFuel => OutOfFuel
  end.

Definition panic {S A} : ST S A := λ _, Panic.
Definition out_of_fuel {S A} : ST S A := λ _, OutOfFuel.

(** [len] is Go's built-in [len], an [int]. *)
Definition len {A} (l : list A) : Z := Z.of_nat (length l).

(** [uint] arithmetic. *)
Definition uint_range (z : Z) : Prop := 0 ≤ z < 2 ^ 64.
Definition uint_wrap (z : Z) : Z := z mod 2 ^ 64.

(** ** Package discord: the entities, reduced to the fields the code reads *)

Module discord.

Definition Snowflake : Type := Z.
Definition Color : Type := Z.

Record User : Type := mkUser {
  User_ID : Snowflake;
  User_Username : string
}.

Record Channel : Type := mkChannel {
  Channel_ID : Snowflake;
  Channel_GuildID : Snowflake;
  Channel_Name : string
}.

Record Guild : Type := mkGuild {
  Guild_ID : Snowflake;
  Guild_Name : string
}.

Record Member : Type := mkMember {
  Member_User : User;
  Member_Nick : string
}.

Record Message : Type := mkMessage {
  Message_ID : Snowflake;
  Message_ChannelID : Snowflake;
  Message_GuildID : Snowflake;
  Message_Author : User;
  Message_Content : string
}.

Record Role : Type := mkRole {
  Role_ID : Snowflake;
  Role_Name : string
}.

Record Emoji : Type := mkEmoji {
  Emoji_ID : Snowflake;
  Emoji_Name : string
}.

Record Presence : Type := mkPresence {
  Presence_User : User;
  Presence_Status : string
}.

(** [m.GuildID = id] *)
Definition Message_setGuildID (id : Snowflake) (m : Message) : Message :=
  mkMessage (Message_ID m) (Message_ChannelID m) id
            (Message_Author m) (Message_Content m).

End discord.

(** Go's [error] values, told apart by their text. *)
Inductive error : Type := errors_New (msg : string).

(** ** Package api: guild.go *)

Module api.
Import discord.

(** The query of [GET /users/@me/guilds]. *)
Record GuildsParam : Type := mkParam {
  Before : Snowflake;
  After : Snowflake;
  Limit : Z
}.

(** One request together with the page that answered it. *)
Record Exchange : Type := mkExchange {
  request : GuildsParam;
  response : list Guild
}.

(** The transport behind [RequestJSON]: an answer to every query, by a
    remote whose state is [κ]. *)
Class Transport (κ : Type) : Type :=
  RequestJSON_guilds : GuildsParam → κ → (list Guild * option error) * κ.

Section Client.
Context {κ : Type} `{!Transport κ}.

(** [Client], with the record of what it sent. *)
Record Client : Type := mkClient {
  remote : κ;
  sent : list Exchange
}.

Definition M : Type → Type := ST Client.

Definition RequestJSON (param : GuildsParam) : M (list Guild * option error) :=
  λ c, let '((gs, err), k) := RequestJSON_guilds param (remote c) in
       Ok ((gs, err), mkClient k (sent c ++ [mkExchange param gs])).

Definition hardLimit : Z := 100.

(** [GuildsRange] fetches guilds. The limit is 1-100. *)
Definition GuildsRange (before after : Snowflake) (limit : Z)
  : M (list Guild * option error) :=
  let limit := if limit =? 0 then 100 else limit in
  let limit := if 100 <? limit then 100 else limit in
  let param := {| Before := before; After := after; Limit := limit |} in
  RequestJSON param.

Definition GuildsBefore (before : Snowflake) (limit : Z) :=
  GuildsRange before 0 limit.

Definition GuildsAfter (after : Snowflake) (limit : Z) :=
  GuildsRange 0 after limit.

(** The loop of [Guilds]; one unit of [fuel] per evaluation of the loop
    condition.  [fetch] is [uint(hardLimit)] on entry of every
    iteration (the init and the post statement both set it). *)
Fixpoint Guilds_loop (fuel : nat) (max : Z) (after : Snowflake)
    (guilds : list Guild) : M (list Guild * option error) :=
  match fuel with
  | O => out_of_fuel
  | S fuel =>
    let fetch := hardLimit in
    if 0 <? max then
      let '(fetch, max) :=
        if 0 <? max then
          let fetch := if max <? fetch then max else fetch in
          (fetch, uint_wrap (max - fetch))
        else (fetch, max) in
      '(g, err) ← GuildsAfter after fetch;
      match err with
      | Some _ => mret (guilds, err)
      | None =>
        let guilds := guilds ++ g in
        if len g <? hardLimit then mret (guilds, None)
        else
          match g !! Z.to_nat (hardLimit - 1) with
          | None => panic
          | Some last => Guilds_loop fuel max (Guild_ID last) guilds
          end
      end
    else mret (guilds, None)
  end.

(** [Guilds] returns all guilds, automatically paginating. *)
Definition Guilds (max : Z) : M (list Guild * option error) :=
  Guilds_loop (S (Z.to_nat max)) max 0 [].

End Client.
Arguments Client κ : clear implicits.
Arguments M κ : clear implicits.

(** The backing source of the pagination property: a remote holding a
    fixed collection of guilds, which answers a query with the first
    [Limit] guilds whose identifier lies strictly after [After] (and
    strictly before [Before], when that bound is set). *)
Definition in_window (p : GuildsParam) (g : Guild) : bool :=
  (After p <? Guild_ID g) && ((Before p =? 0) || (Guild_ID g <? Before p)).

Definition page_of (gs : list Guild) (p : GuildsParam) : list Guild :=
  take (Z.to_nat (Limit p)) (List.filter (in_window p) gs).

#[global] Instance source_Transport : Transport (list Guild) :=
  λ p gs, ((page_of gs p, None), gs).

Definition source (gs : list Guild) : Client (list Guild) := mkClient gs [].

(** The exchanges of a forward walk that starts at the cursor [after]:
    every request walks forward from the cursor with a limit between 1 and
    100, and a request is followed by another one only if its page came
    back full, the cursor being the identifier that ends the page. *)
Fixpoint walked (after : Snowflake) (pages : list Exchange) : Prop :=
  match pages with
  | [] => True
  | p :: tl =>
    Before (request p) = 0 ∧ After (request p) = after ∧
    1 ≤ Limit (request p) ≤ 100 ∧
    match tl with
    | [] => True
    | _ => len (response p) = Limit (request p) ∧
           ∃ g, last (response p) = Some g ∧ walked (Guild_ID g) tl
    end
  end.

(** Identifiers strictly ascending and all above [lo]. *)
Fixpoint ascending_from (lo : Snowflake) (gs : list Guild) : bool :=
  match gs with
  | [] => true
  | g :: tl => (lo <? Guild_ID g) && ascending_from (Guild_ID g) tl
  end.

End api.

(** ** Package state: store.go and state.go *)

Module state.
Import discord.

Definition ErrStoreNotFound : error := errors_New "item not found in store".

(** [Store]: the getters of [StoreGetter] read the storage state [σ]; the
    setters of [StoreModifier] return an error and the next state.  A
    setter is handed what its pointer argument points at when the call is
    made.  Only the methods that [State] calls are listed. *)
Class Store (σ : Type) : Type := {
  Store_Self : σ → option discord.User * option error;
  Store_Channel : Snowflake → σ → option discord.Channel * option error;
  Store_Channels : Snowflake → σ → list discord.Channel * option error;
  Store_Emoji : Snowflake → Snowflake → σ → option discord.Emoji * option error;
  Store_Emojis : Snowflake → σ → list discord.Emoji * option error;
  Store_Guild : Snowflake → σ → option discord.Guild * option error;
  Store_Guilds : σ → list discord.Guild * option error;
  Store_Member : Snowflake → Snowflake → σ → option discord.Member * option error;
  Store_Members : Snowflake → σ → list discord.Member * option error;
  Store_Message : Snowflake → Snowflake → σ → option discord.Message * option error;
  Store_Messages : Snowflake → σ → list discord.Message * option error;
  Store_MaxMessages : σ → Z;
  Store_Presence : Snowflake → Snowflake → σ → option discord.Presence * option error;
  Store_Presences : Snowflake → σ → list discord.Presence * option error;
  Store_Role : Snowflake → Snowflake → σ → option discord.Role * option error;
  Store_Roles : Snowflake → σ → list discord.Role * option error;

  Store_SelfSet : option discord.User → σ → option error * σ;
  Store_ChannelSet : option discord.Channel → σ → option error * σ;
  Store_EmojiSet : Snowflake → list discord.Emoji → σ → option error * σ;
  Store_GuildSet : option discord.Guild → σ → option error * σ;
  Store_MemberSet : Snowflake → option discord.Member → σ → option error * σ;
  Store_MessageSet : option discord.Message → σ → option error * σ;
  Store_RoleSet : Snowflake → option discord.Role → σ → option error * σ
}.

(** A call of a [StoreModifier] method, with its arguments. *)
Inductive Modify : Type :=
| SelfSet (me : option discord.User)
| ChannelSet (c : option discord.Channel)
| EmojiSet (guildID : Snowflake) (emojis : list discord.Emoji)
| GuildSet (g : option discord.Guild)
| MemberSet (guildID : Snowflake) (member : option discord.Member)
| MessageSet (m : option discord.Message)
| RoleSet (guildID : Snowflake) (role : option discord.Role).

Definition Store_modify {σ} `{!Store σ} (w : Modify) : σ → option error * σ :=
  match w with
  | SelfSet me => Store_SelfSet me
  | ChannelSet c => Store_ChannelSet c
  | EmojiSet guildID emojis => Store_EmojiSet guildID emojis
  | GuildSet g => Store_GuildSet g
  | MemberSet guildID member => Store_MemberSet guildID member
  | MessageSet m => Store_MessageSet m
  | RoleSet guildID role => Store_RoleSet guildID role
  end.

(** The pull API reached through [s.Session] (an [api.Client]), and the
    one gateway command [State] sends; [ρ] is the state of the remote.
    The methods of [api.Client] that [State] calls and that are not part
    of the sources at hand are listed with their answer.  [Client.Guilds]
    is part of the sources: it is [api.Guilds] above, and the session
    provides the transport it runs on, [Session_RequestJSON], which
    answers one page request. *)
Class Session (ρ : Type) : Type := {
  Session_Me : ρ → (option discord.User * option error) * ρ;
  Session_Channel : Snowflake → ρ → (option discord.Channel * option error) * ρ;
  Session_Channels : Snowflake → ρ → (list discord.Channel * option error) * ρ;
  Session_Emojis : Snowflake → ρ → (list discord.Emoji * option error) * ρ;
  Session_Guild : Snowflake → ρ → (option discord.Guild * option error) * ρ;
  Session_RequestJSON :
    api.GuildsParam → ρ → (list discord.Guild * option error) * ρ;
  Session_Member : Snowflake → Snowflake → ρ → (option discord.Member * option error) * ρ;
  Session_Members : Snowflake → Z → ρ → (list discord.Member * option error) * ρ;
  Session_Message : Snowflake → Snowflake → ρ → (option discord.Message * option error) * ρ;
  Session_Messages : Snowflake → Z → ρ → (list discord.Message * option error) * ρ;
  Session_Roles : Snowflake → ρ → (list discord.Role * option error) * ρ;
  Gateway_RequestGuildMembers : Snowflake → ρ → option error * ρ
}.

#[global] Instance Session_Transport {ρ} `{!Session ρ} : api.Transport ρ :=
  Session_RequestJSON.

(** What went out through the session, in order.  [Call_Guilds] is one
    page request of [api.Guilds]. *)
Inductive Call : Type :=
| Call_Me
| Call_Channel (id : Snowflake)
| Call_Channels (guildID : Snowflake)
| Call_Emojis (guildID : Snowflake)
| Call_Guild (id : Snowflake)
| Call_Guilds (param : api.GuildsParam)
| Call_Member (guildID userID : Snowflake)
| Call_Members (guildID : Snowflake) (max : Z)
| Call_Message (channelID messageID : Snowflake)
| Call_Messages (channelID : Snowflake) (limit : Z)
| Call_Roles (guildID : Snowflake)
| Call_RequestGuildMembers (guildID : Snowflake).

(** The calls that are fetches of the pull API (all but the gateway
    command). *)
Definition is_fetch (c : Call) : bool :=
  match c with
  | Call_RequestGuildMembers _ => false
  | _ => true
  end.

Definition fetches (cs : list Call) : list Call := List.filter is_fetch cs.

Section State.
Context {σ ρ : Type} `{!Store σ} `{!Session ρ}.

(** [State]: the storage, the session, the memo of channels with few
    messages and the package variables [MaxFetchMembers] and
    [MaxFetchGuilds]; then, for the record, the calls made through the
    session and the modifications asked of the storage, in order.
    [fewMutex] guards [fewMessages] only; a run here is sequential. *)
Record State : Type := mkState {
  store : σ;
  session : ρ;
  fewMessages : list Snowflake;
  MaxFetchMembers : Z;
  MaxFetchGuilds : Z;
  calls : list Call;
  writes : list Modify
}.

Definition M : Type → Type := ST State.

(** The state once [c] went out and left the remote in [r]. *)
Definition called (c : Call) (r : ρ) (s : State) : State :=
  mkState (store s) r (fewMessages s) (MaxFetchMembers s)
          (MaxFetchGuilds s) (calls s ++ [c]) (writes s).

(** The state once the calls [cs] went out and left the remote in [r]. *)
Definition called_all (cs : list Call) (r : ρ) (s : State) : State :=
  mkState (store s) r (fewMessages s) (MaxFetchMembers s)
          (MaxFetchGuilds s) (calls s ++ cs) (writes s).

(** The state once [w] was asked of the storage and left it in [st]. *)
Definition wrote (w : Modify) (st : σ) (s : State) : State :=
  mkState st (session s) (fewMessages s) (MaxFetchMembers s)
          (MaxFetchGuilds s) (calls s) (writes s ++ [w]).

(** The state once [channelID] was appended to [fewMessages]. *)
Definition flagged (channelID : Snowflake) (s : State) : State :=
  mkState (store s) (session s) (fewMessages s ++ [channelID])
          (MaxFetchMembers s) (MaxFetchGuilds s) (calls s) (writes s).

Definition store_get {A} (f : σ → A) : M A :=
  λ s, Ok (f (store s), s).

Definition store_set (w : Modify) : M (option error) :=
  λ s, Ok ((Store_modify w (store s)).1,
           wrote w (Store_modify w (store s)).2 s).

Definition session_do {A} (c : Call) (f : ρ → A * ρ) : M A :=
  λ s, Ok ((f (session s)).1, called c (f (session s)).2 s).

Definition gets {A} (f : State → A) : M A := λ s, Ok (f s, s).

(** [s.fewMessages = append(s.fewMessages, channelID)] *)
Definition fewMessages_append (channelID : Snowflake) : M unit :=
  λ s, Ok (tt, flagged channelID s).

(** [*p] *)
Definition deref {A} (p : option A) : M A :=
  match p with
  | Some a => mret a
  | None => panic
  end.

(** [for _, x := range l { if err := body(&x); err != nil { return ..., err } }]:
    the error that ended the loop, if any. *)
Fixpoint range_set {A} (body : option A → Modify) (l : list A)
  : M (option error) :=
  match l with
  | [] => mret None
  | x :: l =>
    err ← store_set (body (Some x));
    match err with
    | Some _ => mret err
    | None => range_set body l
    end
  end.

Definition Self : M (option discord.User * option error) :=
  '(u, err) ← store_get Store_Self;
  match err with
  | None => mret (u, None)
  | Some _ =>
    '(u, err) ← session_do Call_Me Session_Me;
    match err with
    | Some _ => mret (None, err)
    | None =>
      err ← store_set (SelfSet u);
      mret (u, err)
    end
  end.

Definition Channel (id : Snowflake) : M (option discord.Channel * option error) :=
  '(c, err) ← store_get (Store_Channel id);
  match err with
  | None => mret (c, None)
  | Some _ =>
    '(c, err) ← session_do (Call_Channel id) (Session_Channel id);
    match err with
    | Some _ => mret (None, err)
    | None =>
      err ← store_set (ChannelSet c);
      mret (c, err)
    end
  end.

Definition Channels (guildID : Snowflake) : M (list discord.Channel * option error) :=
  '(c, err) ← store_get (Store_Channels guildID);
  match err with
  | None => mret (c, None)
  | Some _ =>
    '(c, err) ← session_do (Call_Channels guildID) (Session_Channels guildID);
    match err with
    | Some _ => mret ([], err)
    | None =>
      err ← range_set ChannelSet c;
      match err with
      | Some _ => mret ([], err)
      | None => mret (c, None)
      end
    end
  end.

(** [for _, e := range es { if e.ID == emojiID { return &e, nil } }] *)
Fixpoint Emoji_range (emojiID : Snowflake) (es : list discord.Emoji) : option discord.Emoji :=
  match es with
  | [] => None
  | e :: es => if Emoji_ID e =? emojiID then Some e else Emoji_range emojiID es
  end.

Definition Emoji (guildID emojiID : Snowflake) : M (option discord.Emoji * option error) :=
  '(e, err) ← store_get (Store_Emoji guildID emojiID);
  match err with
  | None => mret (e, None)
  | Some _ =>
    '(es, err) ← session_do (Call_Emojis guildID) (Session_Emojis guildID);
    match err with
    | Some _ => mret (None, err)
    | None =>
      err ← store_set (EmojiSet guildID es);
      match err with
      | Some _ => mret (None, err)
      | None =>
        match Emoji_range emojiID es with
        | Some e => mret (Some e, None)
        | None => mret (None, Some ErrStoreNotFound)
        end
      end
    end
  end.

Definition Emojis (guildID : Snowflake) : M (list discord.Emoji * option error) :=
  '(e, err) ← store_get (Store_Emojis guildID);
  match err with
  | None => mret (e, None)
  | Some _ =>
    '(es, err) ← session_do (Call_Emojis guildID) (Session_Emojis guildID);
    match err with
    | Some _ => mret ([], err)
    | None =>
      err ← store_set (EmojiSet guildID es);
      mret (es, err)
    end
  end.

Definition Guild (id : Snowflake) : M (option discord.Guild * option error) :=
  '(c, err) ← store_get (Store_Guild id);
  match err with
  | None => mret (c, None)
  | Some _ =>
    '(c, err) ← session_do (Call_Guild id) (Session_Guild id);
    match err with
    | Some _ => mret (None, err)
    | None =>
      err ← store_set (GuildSet c);
      mret (c, err)
    end
  end.

(** The page requests a client sent, as calls. *)
Definition page_requests (c : api.Client ρ) : list Call :=
  (λ p, Call_Guilds (api.request p)) <$> api.sent c.

(** [s.Session.Guilds(max)]: [api.Guilds], run by the client of the
    session; every page request it sends goes out through the session. *)
Definition Session_Guilds (max : Z) : M (list discord.Guild * option error) :=
  λ s, match api.Guilds max (api.mkClient (session s) []) with
       | Ok (r, c) => Ok (r, called_all (page_requests c) (api.remote c) s)
       | Panic => Panic
       | OutOfFuel => OutOfFuel
       end.

(** [Guilds] will only fill a maximum of 100 guilds from the API. *)
Definition Guilds : M (list discord.Guild * option error) :=
  '(c, err) ← store_get Store_Guilds;
  match err with
  | None => mret (c, None)
  | Some _ =>
    max ← gets MaxFetchGuilds;
    '(c, err) ← Session_Guilds max;
    match err with
    | Some _ => mret ([], err)
    | None =>
      err ← range_set GuildSet c;
      match err with
      | Some _ => mret ([], err)
      | None => mret (c, None)
      end
    end
  end.

Definition Member (guildID userID : Snowflake) : M (option discord.Member * option error) :=
  '(m, err) ← store_get (Store_Member guildID userID);
  match err with
  | None => mret (m, None)
  | Some _ =>
    '(m, err) ← session_do (Call_Member guildID userID)
                           (Session_Member guildID userID);
    match err with
    | Some _ => mret (None, err)
    | None =>
      err ← store_set (MemberSet guildID m);
      mret (m, err)
    end
  end.

Definition Members (guildID : Snowflake) : M (list discord.Member * option error) :=
  '(ms, err) ← store_get (Store_Members guildID);
  match err with
  | None => mret (ms, None)
  | Some _ =>
    max ← gets MaxFetchMembers;
    '(ms, err) ← session_do (Call_Members guildID max)
                            (Session_Members guildID max);
    match err with
    | Some _ => mret ([], err)
    | None =>
      err ← range_set (MemberSet guildID) ms;
      match err with
      | Some _ => mret ([], err)
      | None =>
        err ← session_do (Call_RequestGuildMembers guildID)
                         (Gateway_RequestGuildMembers guildID);
        mret (ms, err)
      end
    end
  end.

Definition Message (channelID messageID : Snowflake)
  : M (option discord.Message * option error) :=
  '(m, err) ← store_get (Store_Message channelID messageID);
  match err with
  | None => mret (m, None)
  | Some _ =>
    '(m, err) ← session_do (Call_Message channelID messageID)
                           (Session_Message channelID messageID);
    match err with
    | Some _ => mret (None, err)
    | None =>
      (* Fill the GuildID, because Discord doesn't do it for us. *)
      '(c, err) ← Channel channelID;
      m ← match err with
          | None =>
            c ← deref c;
            m ← deref m;
            mret (Some (Message_setGuildID (Channel_GuildID c) m))
          | Some _ => mret m
          end;
      err ← store_set (MessageSet m);
      mret (m, err)
    end
  end.

(** [for _, ch := range s.fewMessages { if ch == channelID { ... } }] *)
Fixpoint isFew (channelID : Snowflake) (few : list Snowflake) : bool :=
  match few with
  | [] => false
  | ch :: few => if ch =? channelID then true else isFew channelID few
  end.

(** [for i := range ms { ms[i].GuildID = guildID; MessageSet(&ms[i]) ... }]:
    the slice as the loop left it, and the error that ended it. *)
Fixpoint Messages_range (guildID : Snowflake) (ms : list discord.Message)
  : M (list discord.Message * option error) :=
  match ms with
  | [] => mret ([], None)
  | m :: ms =>
    let m := Message_setGuildID guildID m in
    err ← store_set (MessageSet (Some m));
    match err with
    | Some _ => mret (m :: ms, err)
    | None =>
      '(ms, err) ← Messages_range guildID ms;
      mret (m :: ms, err)
    end
  end.

(** [Messages] from [ms, err = s.Session.Messages(channelID, 100)] on. *)
Definition Messages_fetch (maxMsgs : Z) (channelID : Snowflake)
  : M (list discord.Message * option error) :=
  '(ms, err) ← session_do (Call_Messages channelID 100)
                          (Session_Messages channelID 100);
  match err with
  | Some _ => mret ([], err)
  | None =>
    '(c, err) ← Channel channelID;
    guildID ← match err with
              | None => c ← deref c; mret (Channel_GuildID c)
              | Some _ => mret 0
              end;
    '(ms, err) ← Messages_range guildID ms;
    match err with
    | Some _ => mret ([], err)
    | None =>
      if len ms <? maxMsgs then
        (* Tiny channel, store this. *)
        _ ← fewMessages_append channelID;
        mret (ms, None)
      else if maxMsgs <? 0 then panic
      else mret (take (Z.to_nat maxMsgs) ms, None)
    end
  end.

(** [Messages] fetches maximum 100 messages from the API, if it has to. *)
Definition Messages (channelID : Snowflake) : M (list discord.Message * option error) :=
  maxMsgs ← store_get Store_MaxMessages;
  '(ms, err) ← store_get (Store_Messages channelID);
  match err with
  | None =>
    (* If the state already has as many messages as it can, skip the API. *)
    if maxMsgs <=? len ms then mret (ms, None)
    else
      few ← gets fewMessages;
      if isFew channelID few then mret (ms, None)
      else Messages_fetch maxMsgs channelID
  | Some _ => Messages_fetch maxMsgs channelID
  end.

Definition Presence (guildID userID : Snowflake)
  : M (option discord.Presence * option error) :=
  store_get (Store_Presence guildID userID).

Definition Presences (guildID : Snowflake) : M (list discord.Presence * option error) :=
  store_get (Store_Presences guildID).

(** The loop of [Role].  [r] is the loop's one variable (Go before 1.22
    declares the variable of a [range] loop once for the whole loop, and
    this code predates it): every iteration assigns the next element to
    it, and [role = &r] makes [role] point at that variable, not at the
    element.  [pointsAtR] says whether
    [role] is [&r] or still [nil]; what the caller reads through the
    returned pointer is what [r] holds when the function returns. *)
Definition through (pointsAtR : bool) (r : option discord.Role) : option discord.Role :=
  if pointsAtR then r else None.

Fixpoint Role_range (guildID roleID : Snowflake) (rs : list discord.Role)
    (r : option discord.Role) (pointsAtR : bool) : M (option discord.Role * option error) :=
  match rs with
  | [] => mret (through pointsAtR r, None)
  | x :: rs =>
    let r := Some x in
    let pointsAtR := if Role_ID x =? roleID then true else pointsAtR in
    err ← store_set (RoleSet guildID r);
    match err with
    | Some _ => mret (through pointsAtR r, err)
    | None => Role_range guildID roleID rs r pointsAtR
    end
  end.

Definition Role (guildID roleID : Snowflake) : M (option discord.Role * option error) :=
  '(r, err) ← store_get (Store_Role guildID roleID);
  match err with
  | None => mret (r, None)
  | Some _ =>
    '(rs, err) ← session_do (Call_Roles guildID) (Session_Roles guildID);
    match err with
    | Some _ => mret (None, err)
    | None => Role_range guildID roleID rs None false
    end
  end.

Definition Roles (guildID : Snowflake) : M (list discord.Role * option error) :=
  '(rs, err) ← store_get (Store_Roles guildID);
  match err with
  | None => mret (rs, None)
  | Some _ =>
    '(rs, err) ← session_do (Call_Roles guildID) (Session_Roles guildID);
    match err with
    | Some _ => mret ([], err)
    | None =>
      err ← range_set (RoleSet guildID) rs;
      match err with
      | Some _ => mret (rs, err)
      | None => mret (rs, None)
      end
    end
  end.

(** *** Helper methods *)

Section Helpers.
(** Of package discord, not part of the sources at hand: taken as
    parameters. *)
Variable Valid : Snowflake → bool.
Variable DefaultMemberColor : Color.
Variable discord_MemberColor : discord.Guild → discord.Member → Color.

Definition MemberDisplayName (guildID userID : Snowflake)
  : M (string * option error) :=
  '(member, err) ← Member guildID userID;
  match err with
  | Some _ => mret (EmptyString, err)
  | None =>
    member ← deref member;
    if String.eqb (Member_Nick member) EmptyString
    then mret (User_Username (Member_User member), None)
    else mret (Member_Nick member, None)
  end.

Definition AuthorDisplayName (message : discord.Message) : M string :=
  if negb (Valid (Message_GuildID message))
  then mret (User_Username (Message_Author message))
  else
    '(n, err) ← MemberDisplayName (Message_GuildID message)
                                  (User_ID (Message_Author message));
    match err with
    | Some _ => mret (User_Username (Message_Author message))
    | None => mret n
    end.

Definition MemberColor (guildID userID : Snowflake) : M Color :=
  '(member, err) ← Member guildID userID;
  match err with
  | Some _ => mret DefaultMemberColor
  | None =>
    '(guild, err) ← Guild guildID;
    match err with
    | Some _ => mret DefaultMemberColor
    | None =>
      guild ← deref guild;
      member ← deref member;
      mret (discord_MemberColor guild member)
    end
  end.

Definition AuthorColor (message : discord.Message) : M Color :=
  if negb (Valid (Message_GuildID message))
  then mret DefaultMemberColor
  else MemberColor (Message_GuildID message)
                    (User_ID (Message_Author message)).
End Helpers.

(** *** The accessors, as one family

    An accessor applied to its key, the value it answers with, and the
    tables that say, for each accessor, which method of [State] runs
    it, which getter of the storage it reads first, which call of the
    pull API it falls back on, and which modifications write a fetched
    value back. *)

Inductive Accessor : Type :=
| A_Self
| A_Channel (id : Snowflake)
| A_Channels (guildID : Snowflake)
| A_Emoji (guildID emojiID : Snowflake)
| A_Emojis (guildID : Snowflake)
| A_Guild (id : Snowflake)
| A_Guilds
| A_Member (guildID userID : Snowflake)
| A_Members (guildID : Snowflake)
| A_Message (channelID messageID : Snowflake)
| A_Messages (channelID : Snowflake)
| A_Role (guildID roleID : Snowflake)
| A_Roles (guildID : Snowflake).

Inductive Value : Type :=
| VUser (u : option discord.User)
| VChannel (c : option discord.Channel)
| VChannels (cs : list discord.Channel)
| VEmoji (e : option discord.Emoji)
| VEmojis (es : list discord.Emoji)
| VGuild (g : option discord.Guild)
| VGuilds (gs : list discord.Guild)
| VMember (m : option discord.Member)
| VMembers (ms : list discord.Member)
| VMessage (m : option discord.Message)
| VMessages (ms : list discord.Message)
| VRole (r : option discord.Role)
| VRoles (rs : list discord.Role).

Definition tag {A} (f : A → Value) (r : A * option error)
  : Value * option error :=
  (f r.1, r.2).

Definition tag_fetch {A} (f : A → Value) (r : (A * option error) * ρ)
  : (Value * option error) * ρ :=
  (tag f r.1, r.2).

Definition tagged {A} (f : A → Value) (m : M (A * option error))
  : M (Value * option error) :=
  '(a, err) ← m; mret (f a, err).

Definition run (a : Accessor) : M (Value * option error) :=
  match a with
  | A_Self => tagged VUser Self
  | A_Channel id => tagged VChannel (Channel id)
  | A_Channels guildID => tagged VChannels (Channels guildID)
  | A_Emoji guildID emojiID => tagged VEmoji (Emoji guildID emojiID)
  | A_Emojis guildID => tagged VEmojis (Emojis guildID)
  | A_Guild id => tagged VGuild (Guild id)
  | A_Guilds => tagged VGuilds Guilds
  | A_Member guildID userID => tagged VMember (Member guildID userID)
  | A_Members guildID => tagged VMembers (Members guildID)
  | A_Message channelID messageID => tagged VMessage (Message channelID messageID)
  | A_Messages channelID => tagged VMessages (Messages channelID)
  | A_Role guildID roleID => tagged VRole (Role guildID roleID)
  | A_Roles guildID => tagged VRoles (Roles guildID)
  end.

(** The read of the storage an accessor starts with. *)
Definition stored (a : Accessor) (st : σ) : Value * option error :=
  match a with
  | A_Self => tag VUser (Store_Self st)
  | A_Channel id => tag VChannel (Store_Channel id st)
  | A_Channels guildID => tag VChannels (Store_Channels guildID st)
  | A_Emoji guildID emojiID => tag VEmoji (Store_Emoji guildID emojiID st)
  | A_Emojis guildID => tag VEmojis (Store_Emojis guildID st)
  | A_Guild id => tag VGuild (Store_Guild id st)
  | A_Guilds => tag VGuilds (Store_Guilds st)
  | A_Member guildID userID => tag VMember (Store_Member guildID userID st)
  | A_Members guildID => tag VMembers (Store_Members guildID st)
  | A_Message channelID messageID =>
      tag VMessage (Store_Message channelID messageID st)
  | A_Messages channelID => tag VMessages (Store_Messages channelID st)
  | A_Role guildID roleID => tag VRole (Store_Role guildID roleID st)
  | A_Roles guildID => tag VRoles (Store_Roles guildID st)
  end.

(** What [s.Session.Guilds(MaxFetchGuilds)] answers in state [s], the
    remote after it, and the page requests it sends.  ([api.Guilds]
    returns on every input: see [Guilds_returns].) *)
Definition Guilds_fetch (s : State)
  : ((list discord.Guild * option error) * ρ) * list Call :=
  match api.Guilds (MaxFetchGuilds s) (api.mkClient (session s) []) with
  | Ok (r, c) => ((r, api.remote c), page_requests c)
  | _ => ((([], None), session s), [])
  end.

(** The calls of the fetch an accessor falls back on: one call, but for
    [Guilds], whose fetch is the page requests of [api.Guilds]. *)
Definition fetch_calls (a : Accessor) (s : State) : list Call :=
  match a with
  | A_Self => [Call_Me]
  | A_Channel id => [Call_Channel id]
  | A_Channels guildID => [Call_Channels guildID]
  | A_Emoji guildID _ | A_Emojis guildID => [Call_Emojis guildID]
  | A_Guild id => [Call_Guild id]
  | A_Guilds => (Guilds_fetch s).2
  | A_Member guildID userID => [Call_Member guildID userID]
  | A_Members guildID => [Call_Members guildID (MaxFetchMembers s)]
  | A_Message channelID messageID => [Call_Message channelID messageID]
  | A_Messages channelID => [Call_Messages channelID 100]
  | A_Role guildID _ | A_Roles guildID => [Call_Roles guildID]
  end.

(** What the pull API answers to that fetch in state [s], and the
    remote after it. *)
Definition fetch (a : Accessor) (s : State) : (Value * option error) * ρ :=
  match a with
  | A_Self => tag_fetch VUser (Session_Me (session s))
  | A_Channel id => tag_fetch VChannel (Session_Channel id (session s))
  | A_Channels guildID => tag_fetch VChannels (Session_Channels guildID (session s))
  | A_Emoji guildID _ | A_Emojis guildID =>
      tag_fetch VEmojis (Session_Emojis guildID (session s))
  | A_Guild id => tag_fetch VGuild (Session_Guild id (session s))
  | A_Guilds => tag_fetch VGuilds (Guilds_fetch s).1
  | A_Member guildID userID =>
      tag_fetch VMember (Session_Member guildID userID (session s))
  | A_Members guildID =>
      tag_fetch VMembers (Session_Members guildID (MaxFetchMembers s) (session s))
  | A_Message channelID messageID =>
      tag_fetch VMessage (Session_Message channelID messageID (session s))
  | A_Messages channelID =>
      tag_fetch VMessages (Session_Messages channelID 100 (session s))
  | A_Role guildID _ | A_Roles guildID =>
      tag_fetch VRoles (Session_Roles guildID (session s))
  end.

(** The zero value of an accessor's result: [nil]. *)
Definition zero (a : Accessor) : Value :=
  match a with
  | A_Self => VUser None
  | A_Channel _ => VChannel None
  | A_Channels _ => VChannels []
  | A_Emoji _ _ => VEmoji None
  | A_Emojis _ => VEmojis []
  | A_Guild _ => VGuild None
  | A_Guilds => VGuilds []
  | A_Member _ _ => VMember None
  | A_Members _ => VMembers []
  | A_Message _ _ => VMessage None
  | A_Messages _ => VMessages []
  | A_Role _ _ => VRole None
  | A_Roles _ => VRoles []
  end.

(** The modifications that write a fetched value back, when none of
    them fails.  ([Message] and [Messages] write the fetched messages
    back after stamping them: see [Message] and [Messages_range].) *)
Definition writeback (a : Accessor) (fetched : Value) : list Modify :=
  match a, fetched with
  | A_Self, VUser u => [SelfSet u]
  | A_Channel _, VChannel c => [ChannelSet c]
  | A_Channels _, VChannels cs => (λ c, ChannelSet (Some c)) <$> cs
  | A_Emoji guildID _, VEmojis es | A_Emojis guildID, VEmojis es =>
      [EmojiSet guildID es]
  | A_Guild _, VGuild g => [GuildSet g]
  | A_Guilds, VGuilds gs => (λ g, GuildSet (Some g)) <$> gs
  | A_Member guildID _, VMember m => [MemberSet guildID m]
  | A_Members guildID, VMembers ms => (λ m, MemberSet guildID (Some m)) <$> ms
  | A_Role guildID _, VRoles rs | A_Roles guildID, VRoles rs =>
      (λ r, RoleSet guildID (Some r)) <$> rs
  | _, _ => []
  end.



(** The accessors that end with [return v, s.Store.XSet(v)]. *)
Definition returns_with_Set (a : Accessor) : bool :=
  match a with
  | A_Self | A_Channel _ | A_Emojis _ | A_Guild _ | A_Member _ _ => true
  | _ => false
  end.

(** The guild identifier [Message] and [Messages] take from the lookup
    of the channel: the channel's when the lookup succeeded. *)
Definition resolved_guild (c : option discord.Channel) (err : option error)
  : option Snowflake :=
  match err, c with
  | None, Some c => Some (Channel_GuildID c)
  | _, _ => None
  end.

(** Two states that differ by modifications of the storage only. *)
Definition only_wrote (s s' : State) (ws : list Modify) : Prop :=
  session s' = session s ∧ fewMessages s' = fewMessages s ∧
  MaxFetchMembers s' = MaxFetchMembers s ∧
  MaxFetchGuilds s' = MaxFetchGuilds s ∧
  calls s' = calls s ∧ writes s' = writes s ++ ws.

(** [Messages] reaches its fetch when the read of the storage fails, or
    when it answers fewer than [MaxMessages()] messages for a channel
    that is not in [fewMessages]; every other accessor reaches its
    fetch exactly when the read of the storage fails. *)
Definition reaches_fetch (a : Accessor) (s : State) : bool :=
  match (stored a (store s)).2 with
  | Some _ => true
  | None =>
    match a with
    | A_Messages channelID =>
        negb (Store_MaxMessages (store s) <=? len (Store_Messages channelID (store s)).1)
        && negb (isFew channelID (fewMessages s))
    | _ => false
    end
  end.

(** The accessors that return [nil] whenever they return an error. *)
Definition drops_value_on_error (a : Accessor) : bool :=
  match a with
  | A_Channels _ | A_Emoji _ _ | A_Guilds | A_Messages _ => true
  | _ => false
  end.

(** *** Permissions *)

Section Permissions.
(** [errors.Wrap] of github.com/pkg/errors and [discord.CalcOverwrites],
    neither part of the sources at hand: taken as parameters. *)
Variable errors_Wrap : error → string → error.
Variable CalcOverwrites :
  discord.Guild → discord.Channel → discord.Member → Z.

Definition Permissions (channelID userID : Snowflake) : M (Z * option error) :=
  '(ch, err) ← Channel channelID;
  match err with
  | Some e => mret (0, Some (errors_Wrap e "Failed to get channel"))
  | None =>
    ch ← deref ch;
    '(g, err) ← Guild (Channel_GuildID ch);
    match err with
    | Some e => mret (0, Some (errors_Wrap e "Failed to get guild"))
    | None =>
      '(m, err) ← Member (Channel_GuildID ch) userID;
      match err with
      | Some e => mret (0, Some (errors_Wrap e "Failed to get member"))
      | None =>
        g ← deref g;
        m ← deref m;
        mret (CalcOverwrites g ch m, None)
      end
    end
  end.
End Permissions.

End State.
Arguments State σ ρ : clear implicits.
Arguments M σ ρ : clear implicits.

End state.

(** ** A storage and a remote to run the accessors against *)

Module testbed.
Import discord.
Import state (Store, Session, ErrStoreNotFound).

(** Modelled from the spec: a map-backed storage in the manner of the
    reference implementation (spec 4.1 and 9), which is not part of the
    sources at hand.  An absent key answers [ErrStoreNotFound]; every
    getter of a collection answers a fresh list; the messages of a channel
    are kept in arrival order, at most [ms_maxMessages] of them.  When
    [ms_refuse] is set the backend refuses every modification with that
    error and keeps its state. *)
Record MapStore : Type := mkMapStore {
  ms_self : option User;
  ms_channels : gmap Z Channel;
  ms_emojis : gmap Z (list Emoji);
  ms_guilds : gmap Z Guild;
  ms_members : gmap (Z * Z) Member;
  ms_messages : gmap Z (list Message);
  ms_presences : gmap (Z * Z) Presence;
  ms_roles : gmap (Z * Z) Role;
  ms_maxMessages : Z;
  ms_refuse : option error
}.

Definition empty (maxMessages : Z) (refuse : option error) : MapStore :=
  mkMapStore None ∅ ∅ ∅ ∅ ∅ ∅ ∅ maxMessages refuse.

Definition found {A} (o : option A) : option A * option error :=
  match o with
  | Some a => (Some a, None)
  | None => (None, Some ErrStoreNotFound)
  end.

Definition found_all {A} (l : list A) : list A * option error :=
  match l with
  | [] => ([], Some ErrStoreNotFound)
  | _ => (l, None)
  end.

Definition found_list {A} (o : option (list A)) : list A * option error :=
  match o with
  | Some l => (l, None)
  | None => ([], Some ErrStoreNotFound)
  end.

(** The values of [m] whose key has [guildID] as first component. *)
Definition of_guild {A} (guildID : Z) (m : gmap (Z * Z) A) : list A :=
  snd <$> List.filter (λ kv, kv.1.1 =? guildID) (map_to_list m).

Definition modify (st : MapStore) (next : MapStore) : option error * MapStore :=
  match ms_refuse st with
  | Some e => (Some e, st)
  | None => (None, next)
  end.

Definition nil_argument : error := errors_New "nil argument".

Definition with_pointer {A} (p : option A) (st : MapStore) (next : A → MapStore)
  : option error * MapStore :=
  match p with
  | None => (Some nil_argument, st)
  | Some a => modify st (next a)
  end.

Definition keep_last {A} (n : Z) (l : list A) : list A :=
  drop (length l - Z.to_nat n)%nat l.

Definition put_message (m : Message) (max : Z) (old : list Message) : list Message :=
  keep_last max (List.filter (λ x, negb (Message_ID x =? Message_ID m)) old ++ [m]).

#[global] Instance MapStore_Store : Store MapStore := {|
  state.Store_Self st := found (ms_self st);
  state.Store_Channel id st := found (ms_channels st !! id);
  state.Store_Channels guildID st :=
    found_all (List.filter (λ c, Channel_GuildID c =? guildID)
                           (snd <$> map_to_list (ms_channels st)));
  state.Store_Emoji guildID emojiID st :=
    found (ms_emojis st !! guildID ≫= List.find (λ e, Emoji_ID e =? emojiID));
  state.Store_Emojis guildID st := found_list (ms_emojis st !! guildID);
  state.Store_Guild id st := found (ms_guilds st !! id);
  state.Store_Guilds st := found_all (snd <$> map_to_list (ms_guilds st));
  state.Store_Member guildID userID st := found (ms_members st !! (guildID, userID));
  state.Store_Members guildID st := found_all (of_guild guildID (ms_members st));
  state.Store_Message channelID messageID st :=
    found (ms_messages st !! channelID
           ≫= List.find (λ m, Message_ID m =? messageID));
  state.Store_Messages channelID st := found_list (ms_messages st !! channelID);
  state.Store_MaxMessages st := ms_maxMessages st;
  state.Store_Presence guildID userID st :=
    found (ms_presences st !! (guildID, userID));
  state.Store_Presences guildID st := found_all (of_guild guildID (ms_presences st));
  state.Store_Role guildID roleID st := found (ms_roles st !! (guildID, roleID));
  state.Store_Roles guildID st := found_all (of_guild guildID (ms_roles st));

  state.Store_SelfSet me st :=
    with_pointer me st (λ u,
      mkMapStore (Some u) (ms_channels st) (ms_emojis st) (ms_guilds st)
                 (ms_members st) (ms_messages st) (ms_presences st)
                 (ms_roles st) (ms_maxMessages st) (ms_refuse st));
  state.Store_ChannelSet c st :=
    with_pointer c st (λ c,
      mkMapStore (ms_self st) (<[Channel_ID c := c]> (ms_channels st))
                 (ms_emojis st) (ms_guilds st)
                 (ms_members st) (ms_messages st) (ms_presences st)
                 (ms_roles st) (ms_maxMessages st) (ms_refuse st));
  state.Store_EmojiSet guildID emojis st :=
    modify st
      (mkMapStore (ms_self st) (ms_channels st)
                  (<[guildID := emojis]> (ms_emojis st)) (ms_guilds st)
                  (ms_members st) (ms_messages st) (ms_presences st)
                  (ms_roles st) (ms_maxMessages st) (ms_refuse st));
  state.Store_GuildSet g st :=
    with_pointer g st (λ g,
      mkMapStore (ms_self st) (ms_channels st) (ms_emojis st)
                 (<[Guild_ID g := g]> (ms_guilds st))
                 (ms_members st) (ms_messages st) (ms_presences st)
                 (ms_roles st) (ms_maxMessages st) (ms_refuse st));
  state.Store_MemberSet guildID member st :=
    with_pointer member st (λ m,
      mkMapStore (ms_self st) (ms_channels st) (ms_emojis st) (ms_guilds st)
                 (<[(guildID, User_ID (Member_User m)) := m]> (ms_members st))
                 (ms_messages st) (ms_presences st)
                 (ms_roles st) (ms_maxMessages st) (ms_refuse st));
  state.Store_MessageSet m st :=
    with_pointer m st (λ m,
      mkMapStore (ms_self st) (ms_channels st) (ms_emojis st) (ms_guilds st)
                 (ms_members st)
                 (<[Message_ChannelID m :=
                      put_message m (ms_maxMessages st)
                        (default [] (ms_messages st !! Message_ChannelID m))]>
                    (ms_messages st))
                 (ms_presences st)
                 (ms_roles st) (ms_maxMessages st) (ms_refuse st));
  state.Store_RoleSet guildID role st :=
    with_pointer role st (λ r,
      mkMapStore (ms_self st) (ms_channels st) (ms_emojis st) (ms_guilds st)
                 (ms_members st) (ms_messages st) (ms_presences st)
                 (<[(guildID, Role_ID r) := r]> (ms_roles st))
                 (ms_maxMessages st) (ms_refuse st))
|}.

(** A remote that holds a fixed set of entities and answers every call of
    the pull API from it: an entity it does not hold is answered with
    [not_found_404]; a page request for guilds is answered as
    [api.page_of] says; the gateway command is answered with [gateway]. *)
Record Remote : Type := mkRemote {
  r_me : option User;
  r_channels : list Channel;
  r_emojis : list (Z * Emoji);
  r_guilds : list Guild;
  r_members : list (Z * Member);
  r_messages : list Message;
  r_roles : list (Z * Role);
  r_gateway : option error
}.

Definition not_found_404 : error := errors_New "404 Not Found".

Definition answer {A} (o : option A) : option A * option error :=
  match o with
  | Some a => (Some a, None)
  | None => (None, Some not_found_404)
  end.

(** The entities of a guild the remote knows; an unknown guild is a 404. *)
Definition answer_guild {A} (r : Remote) (guildID : Z) (l : list (Z * A))
  : list A * option error :=
  match List.find (λ g, Guild_ID g =? guildID) (r_guilds r) with
  | Some _ => (snd <$> List.filter (λ kv, kv.1 =? guildID) l, None)
  | None => ([], Some not_found_404)
  end.

#[global] Instance Remote_Session : Session Remote := {|
  state.Session_Me r := (answer (r_me r), r);
  state.Session_Channel id r :=
    (answer (List.find (λ c, Channel_ID c =? id) (r_channels r)), r);
  state.Session_Channels guildID r :=
    (answer_guild r guildID ((λ c, (Channel_GuildID c, c)) <$> r_channels r), r);
  state.Session_Emojis guildID r := (answer_guild r guildID (r_emojis r), r);
  state.Session_Guild id r :=
    (answer (List.find (λ g, Guild_ID g =? id) (r_guilds r)), r);
  state.Session_RequestJSON p r := ((api.page_of (r_guilds r) p, None), r);
  state.Session_Member guildID userID r :=
    (answer (snd <$> List.find (λ kv, (kv.1 =? guildID)
                                && (User_ID (Member_User kv.2) =? userID))
                               (r_members r)), r);
  state.Session_Members guildID max r :=
    let a := answer_guild r guildID (r_members r) in
    ((take (Z.to_nat max) a.1, a.2), r);
  state.Session_Message channelID messageID r :=
    (answer (List.find (λ m, (Message_ChannelID m =? channelID)
                             && (Message_ID m =? messageID))
                       (r_messages r)), r);
  state.Session_Messages channelID limit r :=
    ((take (Z.to_nat limit)
           (List.filter (λ m, Message_ChannelID m =? channelID) (r_messages r)),
      None), r);
  state.Session_Roles guildID r := (answer_guild r guildID (r_roles r), r);
  state.Gateway_RequestGuildMembers guildID r := (r_gateway r, r)
|}.

(** A [State] over the two, with the package defaults and nothing done yet. *)
Definition fresh (st : MapStore) (r : Remote) : state.State MapStore Remote :=
  state.mkState st r [] 1000 100 [] [].

(** The state a run ends in ([s] itself when the run does not return). *)
Definition state_after {A} (m : state.M MapStore Remote A)
    (s : state.State MapStore Remote) : state.State MapStore Remote :=
  match m s with
  | Ok (_, s') => s'
  | _ => s
  end.

(** *** A small world

    One guild (3) with one channel (7), one member, two roles and one
    emoji; the channel has a history of ten messages, which the remote
    hands out without their guild. *)
Definition ann : User := mkUser 11 "ann".
Definition home : Guild := mkGuild 3 "home".
Definition general : Channel := mkChannel 7 3 "general".
Definition admin : Role := mkRole 1 "admin".
Definition guest : Role := mkRole 2 "guest".
Definition history_10 : list Message :=
  (λ i, mkMessage (Z.of_nat i) 7 0 ann "hello") <$> seq 100 10.

Definition first_message : Message := mkMessage 100 7 0 ann "hello".

Definition world : Remote :=
  mkRemote (Some ann) [general] [(3, mkEmoji 5 "smile")] [home]
           [(3, mkMember ann "")] history_10 [(3, admin); (3, guest)] None.

(** The same messages, of a channel the remote does not hand out. *)
Definition hidden_channel : Remote :=
  mkRemote (Some ann) [] [] [home] [(3, mkMember ann "")] history_10 [] None.

(** A remote that answers nothing. *)
Definition offline : Remote := mkRemote None [] [] [] [] [] [] None.

Definition read_only : error := errors_New "storage is read-only".

(** An empty storage with a cap of 50 messages per channel; the same once
    it holds the channel; and an empty one that refuses modifications. *)
Definition cold : state.State MapStore Remote := fresh (empty 50 None) world.

Definition knows_channel : state.State MapStore Remote :=
  fresh (state.Store_ChannelSet (Some general) (empty 50 None)).2 world.

Definition refusing : state.State MapStore Remote :=
  fresh (empty 50 (Some read_only)) world.

Definition unreachable : state.State MapStore Remote :=
  fresh (empty 50 None) offline.

Definition no_channel : state.State MapStore Remote :=
  fresh (empty 50 None) hidden_channel.

(** The storage once it holds the member under an older username. *)
Definition renamed : state.State MapStore Remote :=
  fresh (state.Store_MemberSet 3 (Some (mkMember (mkUser 11 "ann_old") ""))
           (empty 50 None)).2 world.

(** A message of the guild, by [ann]. *)
Definition guild_message : Message := mkMessage 100 7 3 ann "hello".

(** Stand-ins for what package discord provides to the helper methods: a
    [Snowflake] is valid when it is not 0; the default colour; the colour
    of a member. *)
Definition nonzero (id : Snowflake) : bool := negb (id =? 0).
Definition grey : Color := 0.
Definition top_role_colour (g : Guild) (m : Member) : Color := 255.

(** The storage once it holds the channel, its guild and the member. *)
Definition warm : state.State MapStore Remote :=
  fresh (state.Store_MemberSet 3 (Some (mkMember ann ""))
           (state.Store_GuildSet (Some home)
              (state.Store_ChannelSet (Some general) (empty 50 None)).2).2).2
        world.

(** Stand-ins for [errors.Wrap], which puts the label before the text of
    the error, and for [discord.CalcOverwrites]. *)
Definition wrap (e : error) (label : string) : error :=
  match e with
  | errors_New text => errors_New (label ++ ": " ++ text)
  end.

Definition all_permissions (g : Guild) (c : Channel) (m : Member) : Z := 8.

(** A source that answers a number of requests and then fails. *)
Record Flaky : Type := mkFlaky {
  flaky_guilds : list Guild;
  flaky_left : nat
}.

Definition too_many_requests : error := errors_New "429 Too Many Requests".

#[global] Instance Flaky_Transport : api.Transport Flaky :=
  λ p k,
    match flaky_left k with
    | O => (([], Some too_many_requests), k)
    | S n => ((api.page_of (flaky_guilds k) p, None), mkFlaky (flaky_guilds k) n)
    end.

(** 250 guilds with the identifiers 1 to 250. *)
Definition guilds_250 : list Guild :=
  (λ i, mkGuild (Z.of_nat i) "") <$> seq 1 250.

(** A remote that holds those guilds, and an empty storage in front of it
    with [MaxFetchGuilds] raised to 250. *)
Definition crowd : Remote :=
  mkRemote (Some ann) [] [] guilds_250 [] [] [] None.

Definition raised : state.State MapStore Remote :=
  state.mkState (empty 50 None) crowd [] 1000 250 [] [].

End testbed.


(** ** What [api.Guilds] asks of any transport *)

(** The limits a list of exchanges asked for, added up. *)
Definition sum_limits (pages : list api.Exchange) : Z :=
  foldr (λ p n, api.Limit (api.request p) + n) 0 pages.

(** The exchanges [api.Guilds] leaves when it starts at the cursor [after]
    with [max] guilds still wanted: every request walks forward from the
    cursor and asks for [max] guilds, or for 100 when more are wanted; one
    more request follows only a page that has a 100th guild, from the
    identifier of that guild on, with what is then still wanted. *)
Fixpoint asked (after max : Z) (pages : list api.Exchange) : Prop :=
  match pages with
  | [] => True
  | p :: tl =>
    0 < max ∧
    api.request p = api.mkParam 0 after (Z.min max 100) ∧
    match tl with
    | [] => True
    | _ => ∃ g, api.response p !! 99%nat = Some g ∧
                asked (discord.Guild_ID g) (max - Z.min max 100) tl
    end
  end.

(** The exchanges are what the transport answered, one request after the
    other from the remote [k] on: every request got the page recorded with
    it; every request but the last one was answered without an error;
    [err] is the error the last one was answered with ([nil] when nothing
    was sent), and [k'] the remote after it. *)
Fixpoint answered {κ} `{!api.Transport κ} (k : κ) (pages : list api.Exchange)
    (err : option error) (k' : κ) : Prop :=
  match pages with
  | [] => err = None ∧ k' = k
  | p :: tl =>
    let a := api.RequestJSON_guilds (api.request p) k in
    api.response p = a.1.1 ∧
    match tl with
    | [] => err = a.1.2 ∧ k' = a.2
    | _ => a.1.2 = None ∧ answered a.2 tl err k'
    end
  end.

(** * Properties *)

(** ** The pagination walker *)

Section Pagination.
Import discord api.
Import testbed (guilds_250).

Lemma GuildsRange_sent {κ} `{!Transport κ} before after limit (c : Client κ) :
  GuildsRange before after limit c =
    let limit' := if limit =? 0 then 100 else limit in
    let limit'' := if 100 <? limit' then 100 else limit' in
    let p := mkParam before after limit'' in
    let a := RequestJSON_guilds p (remote c) in
    Ok (a.1, mkClient a.2 (sent c ++ [mkExchange p a.1.1])).
Proof.
  unfold GuildsRange, RequestJSON. cbn zeta.
  destruct (RequestJSON_guilds _ _) as [[gs err] k]. reflexivity.
Qed.

(** C8.  Whatever limit a caller passes, the limit [GuildsRange] sends
    lies between 1 and 100: 0 is sent as 100, a limit above 100 is sent as
    100, and a limit in the range is sent as it is.  The request carries
    the two bounds unchanged and is the only one sent. *)
Theorem GuildsRange_limit_clamped {κ} `{!Transport κ}
    (before after : Snowflake) (limit : Z) (c : Client κ) :
  uint_range limit →
  ∃ r c' p,
    GuildsRange before after limit c = Ok (r, c') ∧
    sent c' = sent c ++ [mkExchange p r.1] ∧
    Before p = before ∧ After p = after ∧
    1 ≤ Limit p ≤ 100 ∧
    (100 < limit → Limit p = 100) ∧
    (limit = 0 → Limit p = 100) ∧
    (1 ≤ limit ≤ 100 → Limit p = limit).
Proof.
  intros [Hlo _]. rewrite GuildsRange_sent. cbn zeta.
  eexists _, _, _. split; [reflexivity|]. cbn.
  split; [reflexivity|]. do 2 (split; [reflexivity|]).
  destruct (Z.eqb_spec limit 0) as [->|Hne]; cbn.
  - repeat split; lia.
  - destruct (Z.ltb_spec 100 limit); repeat split; lia.
Qed.

(** Whatever the transport answers, the loop of [Guilds] ends within the
    fuel [Guilds] gives it: every iteration takes at least 1 off [max]. *)
Lemma Guilds_loop_ends {κ} `{!Transport κ} (fuel : nat) :
  ∀ (max after : Z) (acc : list Guild) (c : Client κ),
    (Z.to_nat max < fuel)%nat → uint_range max →
    Guilds_loop fuel max after acc c ≠ OutOfFuel.
Proof.
  induction fuel as [|fuel IH]; intros max after acc c Hfuel [Hlo Hhi]; [lia|].
  cbn [Guilds_loop]. unfold hardLimit.
  destruct (Z.ltb_spec 0 max) as [Hpos|]; [|done].
  unfold mbind, ST_bind, GuildsAfter. rewrite GuildsRange_sent. cbn zeta.
  destruct (RequestJSON_guilds _ _) as [[g [e|]] k]; cbn [fst snd]; [done|].
  destruct (len g <? 100); [done|].
  destruct (g !! Z.to_nat (100 - 1)); [|done].
  assert (Hwrap : uint_wrap (max - (if max <? 100 then max else 100))
                  = max - (if max <? 100 then max else 100)).
  { unfold uint_wrap. apply Z.mod_small. destruct (Z.ltb_spec max 100); lia. }
  rewrite Hwrap.
  apply IH; [|unfold uint_range]; destruct (Z.ltb_spec max 100); lia.
Qed.

(** The source answers a forward query with the guilds after the cursor. *)
Lemma filter_after (after limit : Z) (acc rest : list Guild) :
  Forall (λ g, Guild_ID g ≤ after) acc →
  Forall (λ g, after < Guild_ID g) rest →
  List.filter (in_window (mkParam 0 after limit)) (acc ++ rest) = rest.
Proof.
  intros Hacc Hrest. rewrite List.filter_app.
  replace (List.filter _ acc) with (@nil Guild).
  - cbn. induction Hrest as [|g l Hg _ IH]; [done|].
    cbn. unfold in_window at 1. cbn.
    destruct (Z.ltb_spec after (Guild_ID g)); [|lia]. cbn. by rewrite IH.
  - induction Hacc as [|g l Hg _ IH]; [done|].
    cbn. unfold in_window at 1. cbn.
    destruct (Z.ltb_spec after (Guild_ID g)); [lia|]. done.
Qed.

Lemma ascending_above (lo : Z) (gs : list Guild) :
  ascending_from lo gs = true → Forall (λ g, lo < Guild_ID g) gs.
Proof.
  revert lo. induction gs as [|g gs IH]; intros lo H; [constructor|].
  cbn in H. apply andb_prop in H as [H1 H2]. apply Z.ltb_lt in H1.
  constructor; [done|].
  eapply Forall_impl; [apply IH, H2|]. cbn. intros; lia.
Qed.

(** Cutting an ascending list after its [n]-th guild [x]: the head lies
    at or below [x], the tail ascends from [x]. *)
Lemma ascending_cut (lo : Z) (gs : list Guild) (n : nat) (x : Guild) :
  ascending_from lo gs = true → gs !! n = Some x →
  Forall (λ g, Guild_ID g ≤ Guild_ID x) (take (S n) gs) ∧
  ascending_from (Guild_ID x) (drop (S n) gs) = true ∧
  lo < Guild_ID x.
Proof.
  revert lo n. induction gs as [|g gs IH]; intros lo n H Hx; [done|].
  cbn in H. apply andb_prop in H as [H1 H2]. apply Z.ltb_lt in H1.
  destruct n as [|n]; cbn in Hx.
  - injection Hx as ->. cbn. rewrite take_0, drop_0.
    repeat split; [|done|done]. constructor; [lia|constructor].
  - destruct (IH _ _ H2 Hx) as (Ha & Hb & Hc).
    repeat split; [|done|lia].
    rewrite firstn_cons. constructor; [lia|done].
Qed.

(** One iteration of the loop of [Guilds] against the source. *)
Lemma Guilds_loop_step (fuel : nat) (max after : Z) (acc : list Guild)
    (gs : list Guild) (pages : list Exchange) :
  0 < max →
  Guilds_loop (S fuel) max after acc (mkClient gs pages) =
    let fetch := Z.min max 100 in
    let p := mkParam 0 after fetch in
    let g := page_of gs p in
    let c := mkClient gs (pages ++ [mkExchange p g]) in
    if len g <? 100 then Ok ((acc ++ g, None), c)
    else match g !! 99%nat with
         | None => Panic
         | Some x => Guilds_loop fuel (uint_wrap (max - fetch)) (Guild_ID x) (acc ++ g) c
         end.
Proof.
  intros Hmax. cbn [Guilds_loop]. unfold hardLimit.
  destruct (Z.ltb_spec 0 max) as [_|]; [|lia].
  assert (Hfetch : (if max <? 100 then max else 100) = Z.min max 100)
    by (destruct (Z.ltb_spec max 100); lia).
  rewrite Hfetch. unfold mbind, ST_bind, GuildsAfter.
  rewrite GuildsRange_sent. cbn zeta.
  assert (Hlim : (if 100 <? (if Z.min max 100 =? 0 then 100 else Z.min max 100)
                  then 100
                  else if Z.min max 100 =? 0 then 100 else Z.min max 100)
                 = Z.min max 100).
  { destruct (Z.eqb_spec (Z.min max 100) 0); [lia|].
    destruct (Z.ltb_spec 100 (Z.min max 100)); lia. }
  rewrite Hlim. cbn.
  destruct (len _ <? 100); [reflexivity|].
  change (Z.to_nat (100 - 1)) with 99%nat.
  destruct (_ !! 99%nat); reflexivity.
Qed.

(** The loop against the source, from any point of the walk: [acc] is
    what was collected up to the cursor, [rest] what lies after it. *)
Lemma Guilds_loop_walk (fuel : nat) :
  ∀ (max after : Z) (acc rest : list Guild) (pages : list Exchange),
    (Z.to_nat max < fuel)%nat → uint_range max →
    Forall (λ g, Guild_ID g ≤ after) acc →
    ascending_from after rest = true →
    ∃ new,
      Guilds_loop fuel max after acc (mkClient (acc ++ rest) pages) =
        Ok ((acc ++ take (Z.to_nat max) rest, None),
            mkClient (acc ++ rest) (pages ++ new)) ∧
      walked after new.
Proof.
  induction fuel as [|fuel IH]; intros max after acc rest pages Hfuel [Hlo Hhi] Hacc Hasc;
    [lia|].
  destruct (Z.eq_dec max 0) as [->|Hne].
  { exists []. cbn. rewrite !app_nil_r. done. }
  rewrite Guilds_loop_step by lia. cbn zeta.
  pose proof (ascending_above _ _ Hasc) as Habove.
  assert (Hpage : ∀ lim, page_of (acc ++ rest) (mkParam 0 after lim)
                         = take (Z.to_nat lim) rest).
  { intros lim. unfold page_of. cbn [Limit].
    by rewrite (filter_after _ _ _ _ Hacc Habove). }
  rewrite !Hpage.
  set (k := Z.to_nat (Z.min max 100)).
  assert (Hk : k = Nat.min (Z.to_nat max) 100) by lia.
  destruct (Z.ltb_spec (len (take k rest)) 100) as [Hshort|Hfull].
  - exists [mkExchange (mkParam 0 after (Z.min max 100)) (take k rest)].
    split; [|cbn; repeat split; lia].
    unfold len in Hshort. rewrite length_take in Hshort.
    assert (Htake : take k rest = take (Z.to_nat max) rest).
    { destruct (Nat.le_gt_cases (Z.to_nat max) 100).
      - replace k with (Z.to_nat max) by lia. done.
      - rewrite !take_ge; [done|lia|lia]. }
    by rewrite Htake.
  - unfold len in Hfull. rewrite length_take in Hfull.
    assert (Hk100 : k = 100%nat) by lia.
    assert (Hlen : (100 ≤ length rest)%nat) by lia.
    assert (Hmax : 100 ≤ max) by lia.
    rewrite Hk100.
    destruct (lookup_lt_is_Some_2 rest 99) as [x Hx]; [lia|].
    rewrite lookup_take_lt by lia. rewrite Hx.
    destruct (ascending_cut _ _ _ _ Hasc Hx) as (Hhead & Htail & Hlt).
    replace (Z.min max 100) with 100 in * by lia.
    assert (Hwrap : uint_wrap (max - 100) = max - 100).
    { unfold uint_wrap. apply Z.mod_small. lia. }
    rewrite Hwrap.
    destruct (IH (max - 100) (Guild_ID x) (acc ++ take 100 rest) (drop 100 rest)
                 (pages ++ [mkExchange (mkParam 0 after 100) (take 100 rest)]))
      as (new & Hrun & Hwalk).
    + lia.
    + split; lia.
    + apply Forall_app. split; [|done].
      eapply Forall_impl; [exact Hacc|]. cbn. intros; lia.
    + done.
    + rewrite <- (assoc_L (++) acc), take_drop in Hrun.
      exists (mkExchange (mkParam 0 after 100) (take 100 rest) :: new).
      split.
      * rewrite Hrun, <- !(assoc_L (++)). cbn [app]. rewrite take_take_drop.
        replace (100 + Z.to_nat (max - 100))%nat with (Z.to_nat max) by lia.
        done.
      * cbn [walked request response Before After Limit].
        repeat split; try lia.
        destruct new as [|q new]; [done|].
        split; [unfold len; rewrite length_take; lia|].
        exists x. split; [|done].
        rewrite last_lookup, length_take, lookup_take_lt by lia.
        replace (Init.Nat.pred (100 `min` length rest)) with 99%nat by lia.
        done.
Qed.

Lemma walked_limits (after : Z) (pages : list Exchange) :
  walked after pages →
  ∀ p, p ∈ pages → Before (request p) = 0 ∧ 1 ≤ Limit (request p) ≤ 100.
Proof.
  revert after. induction pages as [|p0 tl IH]; intros after Hw p Hin.
  - by apply elem_of_nil in Hin.
  - destruct Hw as (Hb & _ & Hl & Hrest).
    apply elem_of_cons in Hin as [->|Hin]; [done|].
    destruct tl as [|q tl]; [by apply elem_of_nil in Hin|].
    destruct Hrest as (_ & g & _ & Hw). by eapply IH.
Qed.

Lemma walked_short_is_last (after : Z) (pages : list Exchange) :
  walked after pages →
  ∀ (i : nat) p, pages !! i = Some p →
    len (response p) < Limit (request p) → S i = length pages.
Proof.
  revert after. induction pages as [|p0 tl IH]; intros after Hw i p Hi Hshort;
    [done|].
  destruct Hw as (_ & _ & _ & Hrest).
  destruct tl as [|q tl].
  - destruct i as [|i]; [done|]. by destruct i.
  - destruct Hrest as (Hfull & g & _ & Hw).
    destruct i as [|i]; cbn in Hi.
    + injection Hi as ->. lia.
    + cbn [length]. f_equal. by eapply IH.
Qed.

Lemma walked_cursors (after : Z) (pages : list Exchange) :
  walked after pages →
  (∀ p, pages !! 0%nat = Some p → After (request p) = after) ∧
  (∀ (i : nat) p q, pages !! i = Some p → pages !! S i = Some q →
     ∃ g, last (response p) = Some g ∧ After (request q) = Guild_ID g).
Proof.
  revert after. induction pages as [|p0 tl IH]; intros after Hw; [done|].
  destruct Hw as (_ & Ha & _ & Hrest). split.
  - intros p Hp. cbn in Hp. by injection Hp as <-.
  - intros i p q Hi Hsi. destruct tl as [|q0 tl]; [done|].
    destruct Hrest as (_ & g & Hlast & Hw).
    destruct (IH _ Hw) as [Hfirst Hnext].
    destruct i as [|i]; cbn in Hi, Hsi.
    + injection Hi as <-. exists g. split; [done|]. by apply Hfirst.
    + by eapply Hnext.
Qed.

(** C2.  Against a source that holds [gs], in ascending order of
    identifier, [Guilds max] returns the first [min max T] of them, [T]
    being their number, with no error.  Every request it sent asks for
    between 1 and 100 guilds; a page that came back smaller than asked is
    the last one requested; the first request carries the cursor 0 and
    every later one the identifier of the last guild of the page before
    it. *)
Theorem Guilds_pagination (gs : list Guild) (max : Z) :
  uint_range max →
  ascending_from 0 gs = true →
  ∃ pages,
    Guilds max (source gs) =
      Ok ((take (Z.to_nat max) gs, None), mkClient gs pages) ∧
    len (take (Z.to_nat max) gs) = Z.min max (len gs) ∧
    (∀ p, p ∈ pages →
       Before (request p) = 0 ∧ 1 ≤ Limit (request p) ≤ 100) ∧
    (∀ (i : nat) p, pages !! i = Some p →
       len (response p) < Limit (request p) → S i = length pages) ∧
    (∀ p, pages !! 0%nat = Some p → After (request p) = 0) ∧
    (∀ (i : nat) p q, pages !! i = Some p → pages !! S i = Some q →
       ∃ g, last (response p) = Some g ∧ After (request q) = Guild_ID g).
Proof.
  intros Hmax Hasc.
  destruct (Guilds_loop_walk (S (Z.to_nat max)) max 0 [] gs [])
    as (pages & Hrun & Hw); [lia|done|constructor|done|].
  exists pages. split; [exact Hrun|].
  split; [unfold len; rewrite length_take; destruct Hmax; lia|].
  split; [by apply (walked_limits 0)|].
  split; [by apply (walked_short_is_last 0)|].
  by apply walked_cursors.
Qed.

Lemma GuildsRange_limit_clamped_witness :
  uint_range 250 ∧
  ∃ r c' p,
    GuildsRange 0 0 250 (source guilds_250) = Ok (r, c') ∧
    sent c' = [mkExchange p r.1] ∧ Limit p = 100.
Proof.
  assert (H : uint_range 250) by (unfold uint_range; lia).
  split; [exact H|].
  destruct (GuildsRange_limit_clamped 0 0 250 (source guilds_250) H)
    as (r & c' & p & Hrun & Hsent & _ & _ & _ & Hbig & _).
  exists r, c', p. split; [exact Hrun|]. split; [exact Hsent|].
  apply Hbig. lia.
Defined.

Lemma Guilds_pagination_witness :
  uint_range 120 ∧ ascending_from 0 guilds_250 = true ∧
  ∃ pages,
    Guilds 120 (source guilds_250) =
      Ok ((take 120 guilds_250, None), mkClient guilds_250 pages) ∧
    len (take 120 guilds_250) = 120.
Proof.
  assert (H1 : uint_range 120) by (unfold uint_range; lia).
  assert (H2 : ascending_from 0 guilds_250 = true) by (vm_compute; reflexivity).
  split; [exact H1|]. split; [exact H2|].
  destruct (Guilds_pagination guilds_250 120 H1 H2) as (pages & Hrun & Hlen & _).
  exists pages. split; [exact Hrun|exact Hlen].
Defined.

(** The same walk, run: two requests, of 100 and of 20 guilds, the
    second one after the identifier 100. *)
Example Guilds_120_of_250 :
  (λ o, match o with
        | Ok (r, c) => Some (len r.1, r.2, request <$> sent c)
        | _ => None
        end) (Guilds 120 (source guilds_250))
  = Some (120, None, [mkParam 0 0 100; mkParam 0 100 20]).
Proof. vm_compute. reflexivity. Qed.

(** *** [Guilds] against any transport *)

(** One iteration of the loop of [Guilds], whatever the transport. *)
Lemma Guilds_loop_unfold {κ} `{!Transport κ} (fuel : nat) (max after : Z)
    (acc : list Guild) (c : Client κ) :
  0 < max → uint_range max →
  Guilds_loop (S fuel) max after acc c =
    let p := mkParam 0 after (Z.min max 100) in
    let a := RequestJSON_guilds p (remote c) in
    let c' := mkClient a.2 (sent c ++ [mkExchange p a.1.1]) in
    match a.1.2 with
    | Some e => Ok ((acc, Some e), c')
    | None =>
      if len a.1.1 <? 100 then Ok ((acc ++ a.1.1, None), c')
      else match a.1.1 !! 99%nat with
           | None => Panic
           | Some x =>
               Guilds_loop fuel (max - Z.min max 100) (Guild_ID x) (acc ++ a.1.1) c'
           end
    end.
Proof.
  intros Hmax [_ Hhi]. cbn [Guilds_loop]. unfold hardLimit.
  destruct (Z.ltb_spec 0 max) as [_|]; [|lia].
  assert (Hfetch : (if max <? 100 then max else 100) = Z.min max 100)
    by (destruct (Z.ltb_spec max 100); lia).
  rewrite Hfetch. unfold mbind, ST_bind, GuildsAfter.
  rewrite GuildsRange_sent. cbn zeta.
  assert (Hlim : (if 100 <? (if Z.min max 100 =? 0 then 100 else Z.min max 100)
                  then 100
                  else if Z.min max 100 =? 0 then 100 else Z.min max 100)
                 = Z.min max 100).
  { destruct (Z.eqb_spec (Z.min max 100) 0); [lia|].
    destruct (Z.ltb_spec 100 (Z.min max 100)); lia. }
  rewrite Hlim.
  assert (Hwrap : uint_wrap (max - Z.min max 100) = max - Z.min max 100).
  { unfold uint_wrap. apply Z.mod_small. lia. }
  rewrite Hwrap.
  destruct (RequestJSON_guilds _ _) as [[g [e|]] k]; cbn [fst snd]; [done|].
  destruct (len g <? 100); [done|].
  change (Z.to_nat (100 - 1)) with 99%nat.
  by destruct (g !! 99%nat).
Qed.

(** The loop returns, and what it sent is as [asked] says and was
    answered as [answered] says; something was sent when guilds were
    wanted; without an error the guilds are the pages put end to end, with
    an error they are the pages before the request that failed. *)
Lemma Guilds_loop_asked {κ} `{!Transport κ} (fuel : nat) :
  ∀ (max after : Z) (acc : list Guild) (c : Client κ),
    (Z.to_nat max < fuel)%nat → uint_range max →
    ∃ gs err c' new,
      Guilds_loop fuel max after acc c = Ok ((gs, err), c') ∧
      sent c' = sent c ++ new ∧ asked after max new ∧
      answered (remote c) new err (remote c') ∧
      (0 < max → new ≠ []) ∧
      match err with
      | None => gs = acc ++ concat (response <$> new)
      | Some _ => ∃ init failed, new = init ++ [failed] ∧
                                 gs = acc ++ concat (response <$> init)
      end.
Proof.
  induction fuel as [|fuel IH]; intros max after acc c Hfuel Hmax; [lia|].
  destruct (Z.eq_dec max 0) as [->|Hne].
  { exists acc, None, c, []. cbn. rewrite !app_nil_r.
    repeat split; try done. }
  assert (Hpos : 0 < max) by (destruct Hmax; lia).
  rewrite Guilds_loop_unfold by done. cbn zeta.
  destruct (RequestJSON_guilds _ _) as [[g [e|]] k] eqn:Hreq; cbn [fst snd].
  - eexists _, _, _, [_]. split; [reflexivity|]. split; [done|].
    split; [done|]. split.
    { cbn [answered request response remote]. by rewrite Hreq. }
    split; [done|].
    exists [], (mkExchange (mkParam 0 after (Z.min max 100)) g).
    cbn. by rewrite app_nil_r.
  - destruct (Z.ltb_spec (len g) 100) as [Hlt|Hge].
    { eexists _, _, _, [_]. split; [reflexivity|]. split; [done|].
      split; [done|]. split.
      { cbn [answered request response remote]. by rewrite Hreq. }
      split; [done|]. cbn. by rewrite app_nil_r. }
    destruct (lookup_lt_is_Some_2 g 99) as [x Hx]; [unfold len in Hge; lia|].
    rewrite Hx.
    destruct (IH (max - Z.min max 100) (Guild_ID x) (acc ++ g)
                 (mkClient k (sent c ++ [mkExchange (mkParam 0 after (Z.min max 100)) g])))
      as (gs & err & c' & new & Hrun & Hsent & Hasked & Hans & Hsome & Hres).
    { lia. }
    { destruct Hmax. split; lia. }
    exists gs, err, c', (mkExchange (mkParam 0 after (Z.min max 100)) g :: new).
    split; [exact Hrun|]. split.
    { rewrite Hsent. cbn [sent]. by rewrite <- (assoc_L (++)). }
    split.
    { cbn [asked request response]. split; [done|]. split; [done|].
      destruct new; [done|]. by exists x. }
    split.
    { cbn [answered request response remote] in *. rewrite Hreq. cbn [fst snd].
      split; [done|]. destruct new as [|q new]; [|done].
      destruct Hans as [-> ->]. done. }
    split; [done|].
    destruct err as [e|].
    + destruct Hres as (init & failed & -> & ->).
      exists (mkExchange (mkParam 0 after (Z.min max 100)) g :: init), failed.
      split; [done|]. cbn. by rewrite <- (assoc_L (++)).
    + rewrite Hres. cbn. by rewrite <- (assoc_L (++)).
Qed.

(** [Guilds] returns, whatever the transport answers and whatever [max]
    is: the loop neither runs out of fuel nor indexes a page out of
    range. *)
Lemma Guilds_loop_returns {κ} `{!Transport κ} (fuel : nat) :
  ∀ (max after : Z) (acc : list Guild) (c : Client κ),
    (Z.to_nat max < fuel)%nat →
    ∃ r c', Guilds_loop fuel max after acc c = Ok (r, c').
Proof.
  induction fuel as [|fuel IH]; intros max after acc c Hfuel; [lia|].
  cbn [Guilds_loop]. unfold hardLimit.
  destruct (Z.ltb_spec 0 max) as [Hpos|]; [|by eauto].
  unfold mbind, ST_bind, GuildsAfter. rewrite GuildsRange_sent. cbn zeta.
  destruct (RequestJSON_guilds _ _) as [[g [e|]] k]; cbn [fst snd]; [by eauto|].
  destruct (Z.ltb_spec (len g) 100) as [Hlt|Hge]; [by eauto|].
  change (Z.to_nat (100 - 1)) with 99%nat.
  destruct (lookup_lt_is_Some_2 g 99) as [x ->]; [unfold len in Hge; lia|].
  apply IH.
  assert (Hle : uint_wrap (max - (if max <? 100 then max else 100))
                ≤ max - (if max <? 100 then max else 100)).
  { unfold uint_wrap. apply Z.mod_le; [|lia].
    destruct (Z.ltb_spec max 100); lia. }
  destruct (Z.ltb_spec max 100); lia.
Qed.

Lemma Guilds_returns {κ} `{!Transport κ} (max : Z) (c : Client κ) :
  ∃ r c', Guilds max c = Ok (r, c').
Proof. apply Guilds_loop_returns. lia. Qed.

Lemma asked_limits (after max : Z) (pages : list Exchange) :
  asked after max pages →
  (∀ p, p ∈ pages → Before (request p) = 0 ∧ 1 ≤ Limit (request p) ≤ 100) ∧
  sum_limits pages ≤ Z.max max 0 ∧
  (100 * Z.of_nat (length pages) < max + 100 ∨ pages = []).
Proof.
  revert after max. induction pages as [|p tl IH]; intros after max Hasked.
  - cbn. split; [intros p Hp; by apply elem_of_nil in Hp|]. split; [lia|by right].
  - destruct Hasked as (Hpos & Hreq & Hrest).
    assert (Htl : asked (match tl with
                         | [] => 0
                         | _ => match response p !! 99%nat with
                                | Some g => Guild_ID g
                                | None => 0
                                end
                         end) (max - Z.min max 100) tl).
    { destruct tl as [|q tl]; [done|]. destruct Hrest as (g & -> & Hrest). done. }
    destruct (IH _ _ Htl) as (Hlim & Hsum & Hcount).
    split; [|split].
    + intros q [->|Hq]%elem_of_cons; [|by apply Hlim].
      rewrite Hreq. cbn. lia.
    + cbn [sum_limits foldr]. fold (sum_limits tl). rewrite Hreq. cbn [Limit]. lia.
    + left. cbn [length]. destruct Hcount as [Hcount| ->]; [|cbn; lia].
      destruct tl as [|q tl]; [cbn; lia|].
      destruct Htl as (Hpos' & _). lia.
Qed.

Lemma asked_cursors (after max : Z) (pages : list Exchange) :
  asked after max pages →
  (∀ p, pages !! 0%nat = Some p → After (request p) = after) ∧
  (∀ (i : nat) p q, pages !! i = Some p → pages !! S i = Some q →
     ∃ g, response p !! 99%nat = Some g ∧ After (request q) = Guild_ID g).
Proof.
  revert after max. induction pages as [|p0 tl IH]; intros after max Hasked; [done|].
  destruct Hasked as (_ & Hreq & Hrest). split.
  - intros p [= <-]. by rewrite Hreq.
  - intros i p q Hi Hsi. destruct tl as [|q0 tl]; [done|].
    destruct Hrest as (g & Hg & Hasked).
    destruct (IH _ _ Hasked) as [Hfirst Hnext].
    destruct i as [|i]; cbn in Hi, Hsi.
    + injection Hi as <-. exists g. split; [done|]. by apply Hfirst.
    + by eapply Hnext.
Qed.

(** For any transport and any [max], [Guilds] returns: it neither runs out
    of fuel nor indexes a page out of range.  It asks for no more guilds
    than [max] in total, in requests of 1 to 100 guilds that all walk
    forward (no upper bound), so in at most [max / 100] requests, rounded
    up, and in none when [max] is 0.  The first request starts at the
    cursor 0, every later one at the identifier of the 100th guild of the
    page before it.  Without an error, the guilds returned are the pages
    received, put end to end. *)
Theorem Guilds_requests {κ} `{!Transport κ} (max : Z) (c : Client κ) :
  uint_range max →
  ∃ gs err c' new,
    Guilds max c = Ok ((gs, err), c') ∧ sent c' = sent c ++ new ∧
    (∀ p, p ∈ new → Before (request p) = 0 ∧ 1 ≤ Limit (request p) ≤ 100) ∧
    sum_limits new ≤ max ∧
    100 * Z.of_nat (length new) < max + 100 ∧
    (max = 0 → new = []) ∧
    (∀ p, new !! 0%nat = Some p → After (request p) = 0) ∧
    (∀ (i : nat) p q, new !! i = Some p → new !! S i = Some q →
       ∃ g, response p !! 99%nat = Some g ∧ After (request q) = Guild_ID g) ∧
    (err = None → gs = concat (response <$> new)).
Proof.
  intros Hmax.
  destruct (Guilds_loop_asked (S (Z.to_nat max)) max 0 [] c)
    as (gs & err & c' & new & Hrun & Hsent & Hasked & _ & _ & Hres); [lia|done|].
  destruct (asked_limits _ _ _ Hasked) as (Hlim & Hsum & Hcount).
  destruct (asked_cursors _ _ _ Hasked) as (Hfirst & Hnext).
  exists gs, err, c', new. split; [exact Hrun|]. split; [exact Hsent|].
  split; [exact Hlim|]. destruct Hmax as [Hlo Hhi].
  split; [lia|]. split; [destruct Hcount as [Hcount | ->]; [done|cbn; lia]|].
  split.
  { intros ->. destruct new as [|p tl]; [done|]. destruct Hasked as [? _]. lia. }
  split; [exact Hfirst|]. split; [exact Hnext|].
  intros ->. exact Hres.
Qed.

(** [Guilds] stops at the first request the transport fails.  For any
    transport and any [max], what [Guilds] sent is what the transport
    answered, one request after the other: every request but the last one
    was answered without an error, and the error [Guilds] returns is the
    error the transport gave to the last request ([nil] when that request
    succeeded, or when nothing was sent).  When it returns an error, the
    guilds it returns with it are those of the pages received before the
    failed request, each of which held at least 100 guilds. *)
Theorem Guilds_error_keeps_pages {κ} `{!Transport κ} (max : Z) (c : Client κ) :
  uint_range max →
  ∃ gs err c' new,
    Guilds max c = Ok ((gs, err), c') ∧
    sent c' = sent c ++ new ∧
    answered (remote c) new err (remote c') ∧
    ∀ e, err = Some e →
      ∃ init failed,
        new = init ++ [failed] ∧
        gs = concat (response <$> init) ∧
        (∀ p, p ∈ init → 100 ≤ len (response p)).
Proof.
  intros Hmax.
  destruct (Guilds_loop_asked (S (Z.to_nat max)) max 0 [] c)
    as (gs & err & c' & new & Hrun & Hsent & Hasked & Hans & _ & Hres); [lia|done|].
  exists gs, err, c', new. split; [exact Hrun|]. split; [exact Hsent|].
  split; [exact Hans|]. intros e ->.
  destruct Hres as (init & failed & -> & ->).
  exists init, failed. split; [done|]. split; [done|].
  clear Hsent Hrun Hans. revert Hasked. generalize 0 at 1. generalize max.
  induction init as [|p tl IH]; intros m a Hasked q Hq.
  - by apply elem_of_nil in Hq.
  - destruct Hasked as (_ & _ & Hrest). cbn [app] in Hrest.
    assert (Hne : ∃ x y, tl ++ [failed] = x :: y) by (destruct tl; cbn; eauto).
    destruct Hne as (x & y & Htl). rewrite Htl in Hrest.
    destruct Hrest as (g & Hg & Hasked). rewrite <- Htl in Hasked.
    apply elem_of_cons in Hq as [->|Hq]; [|exact (IH _ _ Hasked q Hq)].
    apply lookup_lt_Some in Hg. unfold len. lia.
Qed.

Lemma Guilds_requests_witness :
  uint_range 250 ∧
  ∃ c' new,
    Guilds 250 (source guilds_250) = Ok ((guilds_250, None), c') ∧
    sent c' = new ∧ sum_limits new ≤ 250 ∧ 100 * Z.of_nat (length new) < 350.
Proof.
  assert (H : uint_range 250) by (unfold uint_range; lia).
  split; [exact H|].
  destruct (Guilds_requests 250 (source guilds_250) H)
    as (gs & err & c' & new & Hrun & Hsent & _ & Hsum & Hcount & _).
  assert (Hgs : Guilds 250 (source guilds_250)
                = Ok ((guilds_250, None),
                      match Guilds 250 (source guilds_250) with
                      | Ok (_, c) => c
                      | _ => source guilds_250
                      end)) by (vm_compute; reflexivity).
  rewrite Hgs in Hrun. injection Hrun as _ _ Hc.
  exists c', new. rewrite <- Hc at 1. split; [exact Hgs|].
  split; [exact Hsent|]. split; [exact Hsum|exact Hcount].
Defined.

Lemma Guilds_error_keeps_pages_witness :
  let c := mkClient (testbed.mkFlaky guilds_250 1) [] in
  uint_range 250 ∧
  ∃ c' new init failed,
    Guilds 250 c = Ok ((take 100 guilds_250, Some testbed.too_many_requests), c') ∧
    sent c' = new ∧
    answered (remote c) new (Some testbed.too_many_requests) (remote c') ∧
    new = init ++ [failed] ∧
    take 100 guilds_250 = concat (response <$> init).
Proof.
  intros c.
  assert (H : uint_range 250) by (unfold uint_range; lia).
  split; [exact H|].
  destruct (Guilds_error_keeps_pages 250 c H)
    as (gs & err & c' & new & Hrun & Hsent & Hans & Hfail).
  assert (Hgs : Guilds 250 c
                = Ok ((take 100 guilds_250, Some testbed.too_many_requests),
                      match Guilds 250 c with Ok (_, c') => c' | _ => c end))
    by (vm_compute; reflexivity).
  rewrite Hgs in Hrun. injection Hrun as Hg He Hc. subst gs err c'.
  destruct (Hfail testbed.too_many_requests eq_refl)
    as (init & failed & Hnew & Hinit & _).
  eexists _, new, init, failed.
  split; [exact Hgs|]. split; [exact Hsent|].
  split; [exact Hans|]. split; [exact Hnew|exact Hinit].
Defined.

End Pagination.

(** ** The read-through accessors *)

Section Accessors.
Import discord state.
Context {σ ρ : Type} `{!Store σ} `{!Session ρ}.
Implicit Types (s : State σ ρ) (a : Accessor) (e : error).

(** Unfolding of the monad and of the primitive steps. *)
Ltac unfold_steps :=
  cbv beta iota zeta delta [mbind mret ST_bind ST_ret store_get store_set
                            session_do gets deref tagged panic
                            fewMessages_append Session_Guilds].

Ltac unfold_steps_in H :=
  cbv beta iota zeta delta [mbind mret ST_bind ST_ret store_get store_set
                            session_do gets deref tagged panic
                            fewMessages_append Session_Guilds] in H.

(** C6.  [Presence] and [Presences] answer with the value and error of
    the storage, as they are, and leave the state as it was: nothing goes
    out through the session, whatever the storage answers. *)
Theorem Presence_verbatim (guildID userID : Snowflake) s :
  Presence guildID userID s = Ok (Store_Presence guildID userID (store s), s) ∧
  Presences guildID s = Ok (Store_Presences guildID (store s), s).
Proof. split; reflexivity. Qed.


Ltac unfold_accessors :=
  unfold Self, Channel, Channels, Emoji, Emojis, Guild, Guilds, Member,
         Members, Message, Messages, Messages_fetch, Role, Roles.

Ltac reduce :=
  cbn [fst snd store session fewMessages calls writes MaxFetchMembers
       MaxFetchGuilds called called_all wrote flagged] in *;
  unfold_steps.

(** Case analysis on the answer of a storage read in the goal. *)
Ltac destruct_read :=
  match goal with
  | |- context [?f (store ?s)] =>
      match type of (f (store s)) with
      | (_ * option error)%type =>
          let H := fresh "Hread" in
          destruct (f (store s)) as [? [?|]] eqn:H
      end
  end.

(** Case analysis on the answer of a session call in the goal. *)
Ltac destruct_call :=
  match goal with
  | |- context [?f (session ?s)] =>
      match type of (f (session s)) with
      | ((_ * option error) * _)%type =>
          let H := fresh "Hcall" in
          destruct (f (session s)) as [[? [?|]] ?] eqn:H
      | (option error * _)%type =>
          let H := fresh "Hcall" in
          destruct (f (session s)) as [[?|] ?] eqn:H
      end
  end.

(** Case analysis on what [api.Guilds] returns in the goal. *)
Ltac destruct_pages :=
  match goal with
  | |- context [api.Guilds ?max ?c] =>
      let H := fresh "Hpages" in
      destruct (Guilds_returns max c) as ([? [?|]] & ? & H);
      rewrite !H
  end.

(** Case analysis on the answer of a storage modification in the goal. *)
Ltac destruct_write :=
  match goal with
  | |- context [Store_modify ?w (store ?s)] =>
      let H := fresh "Hset" in
      destruct (Store_modify w (store s)) as [[?|] ?] eqn:H
  end.

(** C5.  When the fetch an accessor falls back on fails, the accessor
    returns that error, as it is, with the zero value ([nil]); it asks no
    modification of the storage, which stays as it was, and the memo of
    small channels stays as it was; the calls of the failed fetch are the
    only ones that went out (one call; for [Guilds], the page requests up
    to the one that failed). *)
Theorem fetch_failure_writes_nothing a s e :
  reaches_fetch a s = true →
  (fetch a s).1.2 = Some e →
  ∃ s', run a s = Ok ((zero a, Some e), s') ∧
        store s' = store s ∧ writes s' = writes s ∧
        fewMessages s' = fewMessages s ∧
        calls s' = calls s ++ fetch_calls a s.
Proof.
  unfold reaches_fetch. intros Hcold Hfail.
  destruct a; cbn [run stored fetch fetch_calls zero] in *;
    unfold tag_fetch, tag in *; cbn [fst snd] in *;
    unfold_accessors; unfold_steps;
    try solve [
      destruct_read; cbn [fst snd] in *; try discriminate;
      destruct_call; cbn [fst snd] in *; try discriminate;
      injection Hfail as ->; eexists; split; [reflexivity|done] ].
  - (* Guilds: the page requests of [api.Guilds] *)
    unfold Guilds_fetch in *.
    destruct_read; cbn [fst snd] in *; try discriminate.
    destruct (api.Guilds _ _) as [[[gs [e'|]] c]| |];
      cbn [fst snd] in *; try discriminate.
    injection Hfail as ->. eexists; split; [reflexivity|done].
  - (* Messages: the read failed, or it answered too few messages *)
    destruct (Store_Messages channelID (store s)) as [ms [err|]];
      cbn [fst snd] in *.
    + destruct_call; cbn [fst snd] in *; try discriminate.
      injection Hfail as ->. eexists; split; [reflexivity|done].
    + apply andb_prop in Hcold as [Hlen Hfew].
      apply negb_true_iff in Hlen, Hfew. rewrite Hlen, Hfew.
      destruct_call; cbn [fst snd] in *; try discriminate.
      injection Hfail as ->. eexists; split; [reflexivity|done].
Qed.

Lemma fetches_app (cs cs' : list Call) :
  fetches (cs ++ cs') = fetches cs ++ fetches cs'.
Proof. apply List.filter_app. Qed.

Lemma fetches_snoc (cs : list Call) (c : Call) :
  fetches (cs ++ [c]) = fetches cs ++ (if is_fetch c then [c] else []).
Proof. unfold fetches. rewrite List.filter_app. cbn. by destruct (is_fetch c). Qed.

Lemma fetches_page_requests (c : api.Client ρ) :
  fetches (page_requests c) = page_requests c.
Proof.
  unfold page_requests. induction (api.sent c) as [|p l IH]; [done|].
  cbn. unfold fetches in IH. by rewrite IH.
Qed.

(** [s.Session.Guilds(MaxFetchGuilds)] returns, and [Guilds_fetch] is what
    it returns: the answer, the remote after it, the page requests. *)
Lemma Session_Guilds_run s :
  ∃ r c,
    api.Guilds (MaxFetchGuilds s) (api.mkClient (session s) []) = Ok (r, c) ∧
    Guilds_fetch s = ((r, api.remote c), page_requests c) ∧
    Session_Guilds (MaxFetchGuilds s) s
      = Ok (r, called_all (page_requests c) (api.remote c) s).
Proof.
  destruct (Guilds_returns (MaxFetchGuilds s) (api.mkClient (session s) []))
    as (r & c & Hrun).
  exists r, c. unfold Guilds_fetch, Session_Guilds. by rewrite Hrun.
Qed.

(** The page requests [Guilds] sends: none when [MaxFetchGuilds] is 0,
    and otherwise at least one and fewer than [MaxFetchGuilds / 100 + 1],
    so exactly one up to the default of 100. *)
Lemma Guilds_fetch_pages s :
  uint_range (MaxFetchGuilds s) →
  let n := Z.of_nat (length (Guilds_fetch s).2) in
  (MaxFetchGuilds s = 0 → n = 0) ∧
  (0 < MaxFetchGuilds s → 1 ≤ n ∧ 100 * n < MaxFetchGuilds s + 100).
Proof.
  intros Hmax. unfold Guilds_fetch, api.Guilds.
  destruct (Guilds_loop_asked (S (Z.to_nat (MaxFetchGuilds s))) (MaxFetchGuilds s)
              0 [] (api.mkClient (session s) []))
    as (gs & err & c' & new & Hrun & Hsent & Hasked & _ & Hsome & _); [lia|done|].
  rewrite Hrun. cbn [fst snd]. unfold page_requests.
  rewrite Hsent. cbn [api.sent app]. rewrite length_fmap.
  destruct (asked_limits _ _ _ Hasked) as (_ & _ & Hcount).
  split.
  - intros Hzero. destruct new as [|p tl]; [done|].
    destruct Hasked as [Hpos _]. lia.
  - intros Hpos. specialize (Hsome Hpos).
    destruct Hcount as [Hcount|Hnil]; [|done].
    destruct new; [done|]. cbn [length] in *. lia.
Qed.

(** A loop of setters ends, having asked the modifications of a prefix of
    the list, of the whole list when it ends without an error. *)
Lemma range_set_run {A} (body : option A → Modify) (l : list A) s :
  ∃ err s' ws,
    range_set body l s = Ok (err, s') ∧ only_wrote s s' ws ∧
    (err = None → ws = (λ x, body (Some x)) <$> l).
Proof.
  revert s. induction l as [|x l IH]; intros s.
  - exists None, s, []. cbn. unfold only_wrote. by rewrite app_nil_r.
  - cbn [range_set]. unfold_steps.
    destruct (Store_modify (body (Some x)) (store s)) as [[err|] st] eqn:Hset;
      cbn [fst snd].
    + eexists _, _, [_]. split; [reflexivity|]. split; [|done].
      by unfold only_wrote.
    + destruct (IH (wrote (body (Some x)) st s)) as (err & s' & ws & Hrun & Hfr & Hws).
      rewrite Hrun. exists err, s', (body (Some x) :: ws).
      split; [reflexivity|]. split.
      * destruct Hfr as (? & ? & ? & ? & ? & Hw). cbn in *.
        unfold only_wrote. rewrite Hw, <- (assoc_L (++)). done.
      * intros ->. cbn. by rewrite Hws.
Qed.

(** The loop of [Role] likewise; when nothing matches the identifier it
    returns [nil]. *)
Lemma Role_range_run (guildID roleID : Snowflake) (rs : list discord.Role)
    (r : option discord.Role) (p : bool) s :
  ∃ res err s' ws,
    Role_range guildID roleID rs r p s = Ok ((res, err), s') ∧
    only_wrote s s' ws ∧
    (err = None → ws = (λ x, RoleSet guildID (Some x)) <$> rs).
Proof.
  revert r p s. induction rs as [|x rs IH]; intros r p s.
  - exists (through p r), None, s, []. cbn. unfold only_wrote.
    by rewrite app_nil_r.
  - cbn [Role_range]. unfold_steps.
    destruct (Store_modify (RoleSet guildID (Some x)) (store s))
      as [[err|] st] eqn:Hset; cbn [fst snd].
    + eexists _, _, _, [_]. split; [reflexivity|]. split; [|done].
      by unfold only_wrote.
    + destruct (IH (Some x) (if Role_ID x =? roleID then true else p)
                   (wrote (RoleSet guildID (Some x)) st s))
        as (res & err & s' & ws & Hrun & Hfr & Hws).
      rewrite Hrun. exists res, err, s', (RoleSet guildID (Some x) :: ws).
      split; [reflexivity|]. split.
      * destruct Hfr as (? & ? & ? & ? & ? & Hw). cbn in *.
        unfold only_wrote. rewrite Hw, <- (assoc_L (++)). done.
      * intros ->. cbn. by rewrite Hws.
Qed.

(** Case analysis on the loop of setters in the goal. *)
Ltac destruct_range :=
  match goal with
  | |- context [range_set ?body ?l ?s] =>
      let Hrun := fresh "Hrun" in
      let Hfr := fresh "Hfr" in
      let Hws := fresh "Hws" in
      destruct (range_set_run body l s) as ([?|] & ? & ? & Hrun & Hfr & Hws);
      rewrite Hrun
  | |- context [Role_range ?g ?id ?rs ?r ?p ?s] =>
      let Hrun := fresh "Hrun" in
      let Hfr := fresh "Hfr" in
      let Hws := fresh "Hws" in
      destruct (Role_range_run g id rs r p s) as (? & [?|] & ? & ? & Hrun & Hfr & Hws);
      rewrite Hrun
  end.

(** Run the accessor in the goal along every branch. *)
Ltac exec :=
  unfold_accessors; reduce;
  repeat (first [destruct_read | destruct_call | destruct_pages
                | destruct_write | destruct_range
                | match goal with
                  | |- context [Emoji_range ?id ?es] =>
                      destruct (Emoji_range id es) eqn:?
                  end];
          reduce).


(** Use what a loop of setters left unchanged. *)
Ltac use_only_wrote :=
  repeat match goal with
         | H : only_wrote _ _ _ |- _ =>
             let Hc := fresh "Hcalls" in
             let Hw := fresh "Hwrites" in
             destruct H as (? & ? & ? & ? & Hc & Hw);
             cbn [fst snd store session fewMessages calls writes
                  MaxFetchMembers MaxFetchGuilds called wrote flagged] in *;
             rewrite ?Hc, ?Hw
         end.

(** The lookup of a channel always returns; it changes neither the memo
    nor the package variables, and it fetches the channel exactly when the
    storage fails to answer. *)
Lemma Channel_run (id : Snowflake) s :
  ∃ c err s' ws,
    Channel id s = Ok ((c, err), s') ∧
    fewMessages s' = fewMessages s ∧
    MaxFetchMembers s' = MaxFetchMembers s ∧
    MaxFetchGuilds s' = MaxFetchGuilds s ∧
    writes s' = writes s ++ ws ∧
    calls s' = calls s ++ match (Store_Channel id (store s)).2 with
                          | None => []
                          | Some _ => [Call_Channel id]
                          end.
Proof.
  exec.
  - eexists _, _, _, []. split; [reflexivity|]. by rewrite app_nil_r.
  - eexists _, _, _, [_]. split; [reflexivity|]. done.
  - eexists _, _, _, [_]. split; [reflexivity|]. done.
  - eexists _, _, _, []. split; [reflexivity|]. by rewrite !app_nil_r.
Qed.



(** *** [Message] and [Messages] *)

Lemma isFew_snoc (channelID : Snowflake) (few : list Snowflake) :
  isFew channelID (few ++ [channelID]) = true.
Proof.
  induction few as [|ch few IH]; cbn.
  - by rewrite Z.eqb_refl.
  - by destruct (ch =? channelID).
Qed.

(** The loop of [Messages] ends; when it ends without an error it has
    stamped every message and asked the storage to set each of them. *)
Lemma Messages_range_run (guildID : Snowflake) (ms : list discord.Message) s :
  ∃ out err s' ws,
    Messages_range guildID ms s = Ok ((out, err), s') ∧ only_wrote s s' ws ∧
    (err = None →
       out = Message_setGuildID guildID <$> ms ∧
       ws = (λ m, MessageSet (Some (Message_setGuildID guildID m))) <$> ms).
Proof.
  revert s. induction ms as [|m ms IH]; intros s.
  - exists [], None, s, []. cbn. unfold only_wrote. by rewrite app_nil_r.
  - cbn [Messages_range]. unfold_steps.
    destruct (Store_modify (MessageSet (Some (Message_setGuildID guildID m))) (store s))
      as [[err|] st] eqn:Hset; cbn [fst snd].
    + eexists _, _, _, [_]. split; [reflexivity|]. split; [|done].
      by unfold only_wrote.
    + destruct (IH (wrote (MessageSet (Some (Message_setGuildID guildID m))) st s))
        as (out & err & s' & ws & Hrun & Hfr & Hws).
      rewrite Hrun. unfold_steps.
      exists (Message_setGuildID guildID m :: out), err, s',
             (MessageSet (Some (Message_setGuildID guildID m)) :: ws).
      split; [reflexivity|]. split.
      * destruct Hfr as (? & ? & ? & ? & ? & Hw). cbn in *.
        unfold only_wrote. rewrite Hw, <- (assoc_L (++)). done.
      * intros ->. destruct Hws as [-> ->]; done.
Qed.

Lemma Messages_reaches_fetch (channelID : Snowflake) s :
  reaches_fetch (A_Messages channelID) s = true →
  Messages channelID s = Messages_fetch (Store_MaxMessages (store s)) channelID s.
Proof.
  unfold reaches_fetch. cbn [stored]. unfold tag, Messages. unfold_steps.
  destruct (Store_Messages channelID (store s)) as [ms [err|]]; cbn [fst snd];
    [done|].
  intros [Hlen Hfew]%andb_prop. apply negb_true_iff in Hlen, Hfew.
  by rewrite Hlen, Hfew.
Qed.

(** [Messages] on a channel of the memo, or on a full storage: what the
    storage has, and nothing else happens. *)
Lemma Messages_skips_fetch (channelID : Snowflake) s (ms : list discord.Message) :
  Store_Messages channelID (store s) = (ms, None) →
  isFew channelID (fewMessages s) = true ∨ Store_MaxMessages (store s) ≤ len ms →
  Messages channelID s = Ok ((ms, None), s).
Proof.
  intros Hread Hskip. unfold Messages. unfold_steps. rewrite Hread.
  destruct (Z.leb_spec (Store_MaxMessages (store s)) (len ms)); [done|].
  destruct Hskip as [->|]; [done|lia].
Qed.

(** [Messages] from its fetch on, when the fetch and every write succeed. *)
Lemma Messages_fetch_run (cap channelID : Snowflake) s
    (ms : list discord.Message) (r1 : ρ) (c : option discord.Channel)
    (cerr : option error) (s2 : State σ ρ) (out : list discord.Message)
    (s3 : State σ ρ) :
  let guildID := default 0 (resolved_guild c cerr) in
  let stamped := Message_setGuildID guildID <$> ms in
  Session_Messages channelID 100 (session s) = ((ms, None), r1) →
  Channel channelID (called (Call_Messages channelID 100) r1 s)
    = Ok ((c, cerr), s2) →
  (cerr = None → is_Some c) →
  Messages_range guildID ms s2 = Ok ((out, None), s3) →
  out = stamped ∧
  writes s3 = writes s2 ++ ((λ m, MessageSet (Some m)) <$> stamped) ∧
  fewMessages s3 = fewMessages s ∧
  fetches (calls s3) =
    fetches (calls s) ++ Call_Messages channelID 100 ::
      match (Store_Channel channelID (store s)).2 with
      | None => []
      | Some _ => [Call_Channel channelID]
      end ∧
  Messages_fetch cap channelID s =
    if len ms <? cap then Ok ((stamped, None), flagged channelID s3)
    else if cap <? 0 then Panic
    else Ok ((take (Z.to_nat cap) stamped, None), s3).
Proof.
  intros guildID stamped Hfetch Hchan Hnonnil Hloop.
  destruct (Messages_range_run guildID ms s2)
    as (out' & err' & s3' & ws & Hrun & Hfr & Hws).
  rewrite Hloop in Hrun. injection Hrun as <- <- <-.
  destruct (Hws eq_refl) as [Hout Hwrites].
  destruct Hfr as (_ & Hfew3 & _ & _ & Hcalls3 & Hw3).
  destruct (Channel_run channelID (called (Call_Messages channelID 100) r1 s))
    as (c' & cerr' & s2' & ws2 & Hrun2 & Hfew2 & _ & _ & _ & Hcalls2).
  rewrite Hchan in Hrun2. injection Hrun2 as <- <- <-.
  cbn [fewMessages calls called store] in Hfew2, Hcalls2.
  split; [exact Hout|]. split.
  { rewrite Hw3, Hwrites. unfold stamped. by rewrite <- list_fmap_compose. }
  split; [by rewrite Hfew3|]. split.
  { rewrite Hcalls3, Hcalls2, fetches_app, fetches_snoc. cbn [is_fetch].
    rewrite <- (assoc_L (++)). cbn [app]. do 2 f_equal.
    by destruct ((Store_Channel channelID (store s)).2). }
  assert (Hlen : len out = len ms).
  { rewrite Hout. unfold len, stamped. by rewrite length_fmap. }
  unfold Messages_fetch. unfold_steps. rewrite Hfetch. cbn [fst snd].
  rewrite Hchan. unfold_steps.
  subst stamped guildID. unfold resolved_guild in *.
  destruct cerr as [e|]; [|destruct (Hnonnil eq_refl) as [ch ->]];
    cbn [default from_option id] in *; rewrite Hloop; unfold_steps;
    rewrite Hlen, Hout;
    (destruct (len ms <? cap); [done|]; by destruct (cap <? 0)).
Qed.

(** [Message], once the storage failed to answer and the message is
    fetched: the guild of the channel is stamped on the message when the
    lookup of the channel succeeds, the message is left as fetched when it
    fails, and the message is then set in the storage and returned with
    the error of that modification. *)
Lemma Message_fill (channelID messageID : Snowflake) s
    (m : option discord.Message) (r1 : ρ) (c : option discord.Channel)
    (cerr : option error) (s2 : State σ ρ) :
  (Store_Message channelID messageID (store s)).2 ≠ None →
  Session_Message channelID messageID (session s) = ((m, None), r1) →
  Channel channelID (called (Call_Message channelID messageID) r1 s)
    = Ok ((c, cerr), s2) →
  (cerr = None → is_Some c ∧ is_Some m) →
  let m' := match resolved_guild c cerr with
            | Some guildID => Message_setGuildID guildID <$> m
            | None => m
            end in
  let w := Store_modify (MessageSet m') (store s2) in
  Message channelID messageID s = Ok ((m', w.1), wrote (MessageSet m') w.2 s2).
Proof.
  intros Hcold Hfetch Hchan Hnonnil. cbn zeta.
  unfold Message. unfold_steps.
  destruct (Store_Message channelID messageID (store s)) as [m0 [e0|]];
    cbn [fst snd] in *; [|done].
  rewrite Hfetch. cbn [fst snd]. rewrite Hchan. unfold_steps.
  unfold resolved_guild.
  destruct cerr as [e|]; [done|].
  destruct (Hnonnil eq_refl) as [[ch ->] [msg ->]]. done.
Qed.

(** C3 (amended).  Let [Messages] reach its fetch, let the fetch answer
    [ms] without an error and let every message be set in the storage
    without an error.  Then the messages set are the fetched ones, each
    stamped with the guild the lookup of the channel resolved (0 when it
    failed); the fetches that went out are the fetch of the messages and,
    when the storage does not have the channel, the fetch of the channel.
    When [ms] has fewer messages than the cap, the stamped messages are
    returned, all of them, and the channel is appended to the memo; when
    it has at least as many, the first [cap] of them are returned and the
    memo is as it was.  And on any state where the channel is in the memo
    and the storage answers, [Messages] returns what the storage answers
    and does nothing else. *)
Theorem Messages_memo (channelID : Snowflake) s
    (ms : list discord.Message) (r1 : ρ) (c : option discord.Channel)
    (cerr : option error) (s2 : State σ ρ) (out : list discord.Message)
    (s3 : State σ ρ) :
  let cap := Store_MaxMessages (store s) in
  let guildID := default 0 (resolved_guild c cerr) in
  let stamped := Message_setGuildID guildID <$> ms in
  reaches_fetch (A_Messages channelID) s = true →
  Session_Messages channelID 100 (session s) = ((ms, None), r1) →
  Channel channelID (called (Call_Messages channelID 100) r1 s)
    = Ok ((c, cerr), s2) →
  (cerr = None → is_Some c) →
  Messages_range guildID ms s2 = Ok ((out, None), s3) →
  writes s3 = writes s2 ++ ((λ m, MessageSet (Some m)) <$> stamped) ∧
  fetches (calls s3) =
    fetches (calls s) ++ Call_Messages channelID 100 ::
      match (Store_Channel channelID (store s)).2 with
      | None => []
      | Some _ => [Call_Channel channelID]
      end ∧
  (len ms < cap →
     Messages channelID s = Ok ((stamped, None), flagged channelID s3) ∧
     isFew channelID (fewMessages (flagged channelID s3)) = true) ∧
  (0 ≤ cap ≤ len ms →
     Messages channelID s = Ok ((take (Z.to_nat cap) stamped, None), s3) ∧
     fewMessages s3 = fewMessages s) ∧
  (∀ (s' : State σ ρ) (ms' : list discord.Message),
     isFew channelID (fewMessages s') = true →
     Store_Messages channelID (store s') = (ms', None) →
     Messages channelID s' = Ok ((ms', None), s')).
Proof.
  intros cap guildID stamped Hreach Hfetch Hchan Hnonnil Hloop.
  destruct (Messages_fetch_run cap channelID s ms r1 c cerr s2 out s3
              Hfetch Hchan Hnonnil Hloop)
    as (_ & Hwrites & Hfew & Hfetches & Hrun).
  unfold cap in Hrun.
  rewrite <- (Messages_reaches_fetch _ _ Hreach) in Hrun. fold cap in Hrun.
  split; [exact Hwrites|]. split; [exact Hfetches|].
  split; [|split].
  - intros Hsmall. rewrite Hrun.
    destruct (Z.ltb_spec (len ms) cap); [|lia].
    split; [done|]. cbn. apply isFew_snoc.
  - intros [Hcap Hfull]. rewrite Hrun.
    destruct (Z.ltb_spec (len ms) cap); [lia|].
    destruct (Z.ltb_spec cap 0); [lia|]. done.
  - intros s' ms' Hflag Hread. apply Messages_skips_fetch; [done|by left].
Qed.

(** C10.  When the lookup of the channel fails, whatever its error:
    [Message] returns the message as it was fetched, its guild identifier
    untouched, after asking the storage to set it, and the error it
    returns is the error of that modification; [Messages], when every
    message is set without an error, returns the fetched messages (the
    first [cap] of them when there are that many) with the guild
    identifier 0 and no error, and the state it ends in is the one the
    loop of modifications left (with the channel appended to the memo when
    there are fewer than [cap] messages): the storage was asked to set
    each fetched message, in order, with the guild identifier 0. *)
Theorem guild_stamping_swallows_lookup_failure
    (channelID messageID : Snowflake) s :
  (∀ (m : option discord.Message) (r1 : ρ) (c : option discord.Channel)
     (e : error) (s2 : State σ ρ),
     (Store_Message channelID messageID (store s)).2 ≠ None →
     Session_Message channelID messageID (session s) = ((m, None), r1) →
     Channel channelID (called (Call_Message channelID messageID) r1 s)
       = Ok ((c, Some e), s2) →
     let w := Store_modify (MessageSet m) (store s2) in
     Message channelID messageID s = Ok ((m, w.1), wrote (MessageSet m) w.2 s2)) ∧
  (∀ (ms : list discord.Message) (r1 : ρ) (c : option discord.Channel)
     (e : error) (s2 : State σ ρ) (out : list discord.Message)
     (s3 : State σ ρ),
     let cap := Store_MaxMessages (store s) in
     let stamped := Message_setGuildID 0 <$> ms in
     reaches_fetch (A_Messages channelID) s = true →
     Session_Messages channelID 100 (session s) = ((ms, None), r1) →
     Channel channelID (called (Call_Messages channelID 100) r1 s)
       = Ok ((c, Some e), s2) →
     Messages_range 0 ms s2 = Ok ((out, None), s3) →
     0 ≤ cap →
     let returned := if len ms <? cap then stamped
                     else take (Z.to_nat cap) stamped in
     let s' := if len ms <? cap then flagged channelID s3 else s3 in
     Messages channelID s = Ok ((returned, None), s') ∧
     store s' = store s3 ∧
     writes s' = writes s2 ++ ((λ m, MessageSet (Some m)) <$> stamped) ∧
     Forall (λ m, Message_GuildID m = 0) returned).
Proof.
  split.
  - intros m r1 c e s2 Hcold Hfetch Hchan.
    by apply (Message_fill channelID messageID s m r1 c (Some e) s2).
  - intros ms r1 c e s2 out s3 cap stamped Hreach Hfetch Hchan Hloop Hcap.
    destruct (Messages_fetch_run cap channelID s ms r1 c (Some e) s2 out s3
                Hfetch Hchan ltac:(discriminate) Hloop)
      as (_ & Hwrites & _ & _ & Hrun).
    unfold cap in Hrun.
    rewrite <- (Messages_reaches_fetch _ _ Hreach) in Hrun. fold cap in Hrun.
    cbn [resolved_guild default from_option id] in Hrun, Hwrites.
    fold stamped in Hrun, Hwrites. cbn zeta.
    assert (Hzero : ∀ l, Forall (λ m, Message_GuildID m = 0)
                                (Message_setGuildID 0 <$> l))
      by (intros l; by apply Forall_fmap, Forall_true).
    destruct (len ms <? cap).
    + split; [exact Hrun|]. split; [done|]. split; [exact Hwrites|].
      apply Hzero.
    + destruct (Z.ltb_spec cap 0); [lia|].
      split; [exact Hrun|]. split; [done|]. split; [exact Hwrites|].
      apply Forall_take, Hzero.
Qed.

(** C9.  When the fetch succeeds and the modification that writes the
    fetched value back fails, [Self], [Channel], [Guild], [Member] and
    [Emojis] return the fetched value (non-nil when the fetch answered a
    non-nil one) together with the error of the modification; so does
    [Message], the value being the fetched message with the guild of its
    channel stamped on it when the lookup of the channel succeeded. *)
Theorem writeback_failure_returns_value s :
  (∀ a (v : Value) (r1 : ρ) (w : Modify) (e : error),
     returns_with_Set a = true →
     (stored a (store s)).2 ≠ None →
     fetch a s = ((v, None), r1) →
     writeback a v = [w] →
     (Store_modify w (store s)).1 = Some e →
     run a s = Ok ((v, Some e),
                   wrote w (Store_modify w (store s)).2
                         (called_all (fetch_calls a s) r1 s))) ∧
  (∀ (channelID messageID : Snowflake) (m : discord.Message) (r1 : ρ)
     (c : option discord.Channel) (cerr : option error) (s2 : State σ ρ)
     (e : error),
     (Store_Message channelID messageID (store s)).2 ≠ None →
     Session_Message channelID messageID (session s) = ((Some m, None), r1) →
     Channel channelID (called (Call_Message channelID messageID) r1 s)
       = Ok ((c, cerr), s2) →
     (cerr = None → is_Some c) →
     let m' := match resolved_guild c cerr with
               | Some guildID => Message_setGuildID guildID m
               | None => m
               end in
     (Store_modify (MessageSet (Some m')) (store s2)).1 = Some e →
     Message channelID messageID s =
       Ok ((Some m', Some e),
           wrote (MessageSet (Some m'))
                 (Store_modify (MessageSet (Some m')) (store s2)).2 s2)).
Proof.
  split.
  - intros a v r1 w e Hkind Hcold Hfetch Hback Hset.
    destruct a; try discriminate;
      cbn [run stored fetch fetch_calls] in *; unfold tag, tag_fetch in *;
      unfold_accessors; unfold_steps;
      destruct_read; cbn [fst snd] in *; try done;
      destruct_call; cbn [fst snd] in *; try discriminate;
      injection Hfetch as <- <-; cbn [writeback] in Hback;
      injection Hback as <-; reduce; by rewrite Hset.
  - intros channelID messageID m r1 c cerr s2 e Hcold Hfetch Hchan Hnonnil m' Hset.
    pose proof (Message_fill channelID messageID s (Some m) r1 c cerr s2
                  Hcold Hfetch Hchan) as Hfill.
    cbn zeta in Hfill.
    assert (Hm : match resolved_guild c cerr with
                 | Some guildID => Message_setGuildID guildID <$> Some m
                 | None => Some m
                 end = Some m').
    { unfold m'. by destruct (resolved_guild c cerr). }
    rewrite Hm in Hfill. rewrite Hfill.
    + by rewrite Hset.
    + intros Hc. split; [by apply Hnonnil|by eexists].
Qed.

(** *** The helper methods *)

Section Helpers.
Variable Valid : Snowflake → bool.
Variable DefaultMemberColor : Color.
Variable discord_MemberColor : discord.Guild → discord.Member → Color.

(** C7 (amended).  [AuthorDisplayName], [AuthorColor] and [MemberColor]
    have no error to return, and fall back on a default:
    [AuthorDisplayName] returns the username of the author of the
    message when the guild identifier of the message is not valid and
    when the lookup of the member fails; when the lookup succeeds it
    returns the nickname of the member, or the username the member
    carries when the nickname is empty.  [AuthorColor] returns the
    default colour when the guild identifier is not valid and is
    [MemberColor] otherwise; [MemberColor] returns the default colour
    when the lookup of the member or that of the guild fails.
    [MemberDisplayName] is not of that kind: when the lookup of the
    member fails it returns the empty name and the error of the
    lookup.  (A lookup that answers [nil] with no error makes the
    helpers dereference [nil].) *)
Theorem cosmetic_helpers (message : discord.Message)
    (guildID userID : Snowflake) s :
  let author := User_Username (Message_Author message) in
  let named (m : discord.Member) (run : outcome (string * State σ ρ))
            (s' : State σ ρ) :=
    (Member_Nick m = EmptyString →
       run = Ok (User_Username (Member_User m), s')) ∧
    (Member_Nick m ≠ EmptyString → run = Ok (Member_Nick m, s')) in
  (Valid (Message_GuildID message) = false →
     AuthorDisplayName Valid message s = Ok (author, s) ∧
     AuthorColor Valid DefaultMemberColor discord_MemberColor message s
       = Ok (DefaultMemberColor, s)) ∧
  (Valid (Message_GuildID message) = true →
     AuthorColor Valid DefaultMemberColor discord_MemberColor message s
       = MemberColor DefaultMemberColor discord_MemberColor
           (Message_GuildID message) (User_ID (Message_Author message)) s ∧
     ∀ m err s',
       Member (Message_GuildID message) (User_ID (Message_Author message)) s
         = Ok ((m, err), s') →
       match err, m with
       | Some _, _ => AuthorDisplayName Valid message s = Ok (author, s')
       | None, Some m => named m (AuthorDisplayName Valid message s) s'
       | None, None => AuthorDisplayName Valid message s = Panic
       end) ∧
  (∀ m err s',
     Member guildID userID s = Ok ((m, err), s') →
     match err, m with
     | Some e, _ =>
         MemberDisplayName guildID userID s = Ok ((EmptyString, Some e), s') ∧
         MemberColor DefaultMemberColor discord_MemberColor guildID userID s
           = Ok (DefaultMemberColor, s')
     | None, Some m =>
         (Member_Nick m = EmptyString →
            MemberDisplayName guildID userID s
              = Ok ((User_Username (Member_User m), None), s')) ∧
         (Member_Nick m ≠ EmptyString →
            MemberDisplayName guildID userID s = Ok ((Member_Nick m, None), s')) ∧
         ∀ g gerr s'',
           Guild guildID s' = Ok ((g, gerr), s'') →
           MemberColor DefaultMemberColor discord_MemberColor guildID userID s =
             match gerr, g with
             | Some _, _ => Ok (DefaultMemberColor, s'')
             | None, Some g => Ok (discord_MemberColor g m, s'')
             | None, None => Panic
             end
     | None, None => MemberDisplayName guildID userID s = Panic
     end).
Proof.
  cbn zeta. split; [|split].
  - intros Hinvalid. unfold AuthorDisplayName, AuthorColor.
    by rewrite Hinvalid.
  - intros Hvalid. unfold AuthorDisplayName, AuthorColor. rewrite Hvalid.
    cbn [negb]. split; [done|].
    intros m err s' Hmember. unfold MemberDisplayName. unfold_steps.
    rewrite Hmember. unfold_steps.
    destruct err as [e|]; [done|]. destruct m as [m|]; [|done].
    split; intros Hnick.
    + apply String.eqb_eq in Hnick. by rewrite Hnick.
    + apply String.eqb_neq in Hnick. by rewrite Hnick.
  - intros m err s' Hmember.
    unfold MemberDisplayName, MemberColor. unfold_steps.
    rewrite Hmember. unfold_steps.
    destruct err as [e|]; [done|]. destruct m as [m|]; [|done].
    split; [|split].
    + intros Hnick. apply String.eqb_eq in Hnick. by rewrite Hnick.
    + intros Hnick. apply String.eqb_neq in Hnick. by rewrite Hnick.
    + intros g gerr s'' Hguild. rewrite Hguild. unfold_steps.
      destruct gerr as [e|]; [done|]. by destruct g.
Qed.
End Helpers.

(** *** The loop of [Role] *)

(** When every role is set without an error, the pointer [Role] returns
    is [nil] if no fetched role has the identifier, and otherwise reads
    the role the loop visited last: the last one fetched, whichever one
    matched. *)
Lemma Role_range_result (guildID roleID : Snowflake) (rs : list discord.Role)
    (r : option discord.Role) (p : bool) s (res : option discord.Role)
    (s' : State σ ρ) :
  Role_range guildID roleID rs r p s = Ok ((res, None), s') →
  res = through (p || existsb (λ x, Role_ID x =? roleID) rs)
                (match last rs with Some x => Some x | None => r end).
Proof.
  revert r p s. induction rs as [|x rs IH]; intros r p s Hrun.
  - cbn in Hrun. injection Hrun as <- <-. cbn. by rewrite orb_false_r.
  - cbn [Role_range] in Hrun. unfold_steps_in Hrun.
    destruct (Store_modify (RoleSet guildID (Some x)) (store s)) as [[e|] st];
      cbn [fst snd] in Hrun; [discriminate|].
    apply IH in Hrun. rewrite Hrun. cbn [existsb]. f_equal.
    + by destruct (Role_ID x =? roleID), p.
    + rewrite last_cons. by destruct (last rs).
Qed.

Lemma Role_returns_last_fetched (guildID roleID : Snowflake) s
    (rs : list discord.Role) (r1 : ρ) (res : option discord.Role)
    (s' : State σ ρ) :
  (Store_Role guildID roleID (store s)).2 ≠ None →
  Session_Roles guildID (session s) = ((rs, None), r1) →
  Role guildID roleID s = Ok ((res, None), s') →
  res = if existsb (λ x, Role_ID x =? roleID) rs then last rs else None.
Proof.
  intros Hcold Hfetch. unfold Role. unfold_steps.
  destruct (Store_Role guildID roleID (store s)) as [r0 [e0|]];
    cbn [fst snd] in *; [|done].
  rewrite Hfetch. cbn [fst snd]. intros Hrun.
  apply Role_range_result in Hrun. rewrite Hrun. cbn [orb].
  unfold through. destruct (existsb _ rs); [|done]. by destruct (last rs).
Qed.

(** *** What a call of an accessor leaves behind *)

Ltac solve_app :=
  first [ reflexivity
        | symmetry; apply app_nil_r
        | rewrite <- !(assoc_L (++)); reflexivity ].

Lemma Messages_fetch_frame (cap channelID : Snowflake) s
    (r : list discord.Message * option error) (s' : State σ ρ) :
  Messages_fetch cap channelID s = Ok (r, s') →
  ∃ cs ws,
    calls s' = calls s ++ cs ∧ writes s' = writes s ++ ws ∧
    MaxFetchMembers s' = MaxFetchMembers s ∧
    MaxFetchGuilds s' = MaxFetchGuilds s ∧
    (length (fetches cs) ≤ 2)%nat ∧ fetches cs = cs ∧
    (fewMessages s' = fewMessages s ∨
     fewMessages s' = fewMessages s ++ [channelID]).
Proof.
  unfold Messages_fetch. unfold_steps. destruct_call; reduce.
  { intros [= <- <-]. cbn. eexists [_], []. rewrite app_nil_r.
    repeat split; try done; try (cbn; lia). by left. }
  destruct (Channel_run channelID (called (Call_Messages channelID 100) ρ0 s))
    as (c & cerr & s2 & ws & HC & Hfew & Hm1 & Hm2 & Hw & Hc).
  rewrite HC. unfold_steps.
  cbn [fst snd store fewMessages calls writes MaxFetchMembers
       MaxFetchGuilds called] in *.
  assert (Hloop : ∀ guildID,
    match Messages_range guildID l s2 with
    | Ok (a, s'0) =>
        match a with
        | (ms, Some _ as err) => λ s0 : State σ ρ, Ok (([] : list discord.Message, err), s0)
        | (ms, None) =>
            if len ms <? cap
            then λ s0, Ok ((ms, None), flagged channelID s0)
            else if cap <? 0 then λ _, Panic
                 else λ s0, Ok ((take (Z.to_nat cap) ms, None), s0)
        end s'0
    | Panic => Panic
    | OutOfFuel => OutOfFuel
    end = Ok (r, s') →
    ∃ cs ws0,
      calls s' = calls s ++ cs ∧ writes s' = writes s ++ ws0 ∧
      MaxFetchMembers s' = MaxFetchMembers s ∧
      MaxFetchGuilds s' = MaxFetchGuilds s ∧
      (length (fetches cs) ≤ 2)%nat ∧ fetches cs = cs ∧
      (fewMessages s' = fewMessages s ∨
       fewMessages s' = fewMessages s ++ [channelID])).
  { intros guildID.
    destruct (Messages_range_run guildID l s2)
      as (out & err & s3 & ws3 & Hrun & (Hs & Hf3 & Hm13 & Hm23 & Hc3 & Hw3) & _).
    rewrite Hrun.
    destruct err as [e|]; [|destruct (len out <? cap); [|destruct (cap <? 0)]];
      intros Hres; try discriminate; injection Hres as <- <-;
      cbn [fst snd store fewMessages calls writes MaxFetchMembers
           MaxFetchGuilds flagged];
      rewrite ?Hc3, ?Hw3, ?Hf3, ?Hm13, ?Hm23, ?Hc, ?Hw, ?Hfew, ?Hm1, ?Hm2;
      destruct ((Store_Channel channelID (store s)).2);
      eexists _, _; (split; [solve_app|]); (split; [solve_app|]);
      cbn; repeat split; try lia; try done; by (left + right). }
  destruct cerr as [cerr|]; [|destruct c as [c|]]; unfold_steps;
    [apply Hloop|apply Hloop|discriminate].
Qed.

(** Whatever an accessor returns: the calls and the modifications it made
    come after those made before; the package variables are as they were;
    [Guilds] sent the page requests of its fetch, or nothing; of the other
    accessors [Message] and [Messages] sent at most two fetches and the
    rest at most one; only [Members] sends the gateway command; and only
    [Messages] touches the memo, by appending its own channel. *)
Lemma run_frame a s r s' :
  run a s = Ok (r, s') →
  ∃ cs ws,
    calls s' = calls s ++ cs ∧ writes s' = writes s ++ ws ∧
    MaxFetchMembers s' = MaxFetchMembers s ∧
    MaxFetchGuilds s' = MaxFetchGuilds s ∧
    match a with
    | A_Guilds => cs = [] ∨ cs = fetch_calls a s
    | A_Message _ _ | A_Messages _ => (length (fetches cs) ≤ 2)%nat
    | _ => (length (fetches cs) ≤ 1)%nat
    end ∧
    match a with
    | A_Members _ => True
    | _ => fetches cs = cs
    end ∧
    (fewMessages s' = fewMessages s ∨
     ∃ channelID, a = A_Messages channelID ∧
                  fewMessages s' = fewMessages s ++ [channelID]).
Proof.
  intros Hrun. revert Hrun.
  destruct a; cbn [run fetch_calls]; unfold Guilds_fetch.
  all: try solve [
    exec; intros Hres; try discriminate; injection Hres as <- <-;
    use_only_wrote; cbn [fst snd calls writes called wrote fewMessages
                         MaxFetchMembers MaxFetchGuilds];
    eexists _, _; (split; [solve_app|]); (split; [solve_app|]);
    cbn; repeat split; try lia; try done; by left ].
  - (* Guilds *)
    exec; intros Hres; try discriminate; injection Hres as <- <-;
      use_only_wrote;
      cbn [fst snd calls writes called called_all wrote fewMessages
           MaxFetchMembers MaxFetchGuilds];
      eexists _, _; (split; [solve_app|]); (split; [solve_app|]);
      (split; [done|]); (split; [done|]);
      (split; [first [by left | by right]|]);
      (split; [by rewrite ?fetches_page_requests|]); by left.
  - (* Message *)
    unfold tagged, Message. unfold_steps.
    destruct_read; reduce.
    + destruct_call; reduce.
      * intros [= <- <-]. cbn. eexists [_], []. rewrite app_nil_r.
        repeat split; try done; try (cbn; lia). by left.
      * destruct (Channel_run channelID (called (Call_Message channelID messageID) ρ0 s))
          as (c & cerr & s2 & ws & HC & Hfew & Hm1 & Hm2 & Hw & Hc).
        rewrite HC. unfold_steps.
        cbn [fst snd store fewMessages calls writes MaxFetchMembers
             MaxFetchGuilds called] in *.
        destruct cerr as [cerr|]; [|destruct c as [c|]; [destruct o0 as [m|]|]];
          unfold_steps; intros Hres; try discriminate; injection Hres as <- <-;
          cbn [fst snd store fewMessages calls writes MaxFetchMembers
               MaxFetchGuilds wrote]; rewrite Hc, Hw;
          destruct ((Store_Channel channelID (store s)).2);
          eexists _, _; (split; [solve_app|]); (split; [solve_app|]);
          cbn; repeat split; try lia; try done; by left.
    + intros [= <- <-]. exists [], []. rewrite !app_nil_r.
      repeat split; try done; try (cbn; lia). by left.
  - (* Messages *)
    unfold tagged, Messages. unfold_steps.
    assert (Hfetch : ∀ cap,
      match Messages_fetch cap channelID s with
      | Ok (a, s'0) => (let '(a1, err) := a in λ s0, Ok ((VMessages a1, err), s0)) s'0
      | Panic => Panic
      | OutOfFuel => OutOfFuel
      end = Ok (r, s') →
      ∃ cs ws,
        calls s' = calls s ++ cs ∧ writes s' = writes s ++ ws ∧
        MaxFetchMembers s' = MaxFetchMembers s ∧
        MaxFetchGuilds s' = MaxFetchGuilds s ∧
        (length (fetches cs) ≤ 2)%nat ∧ fetches cs = cs ∧
        (fewMessages s' = fewMessages s ∨
         ∃ channelID0, A_Messages channelID = A_Messages channelID0 ∧
                       fewMessages s' = fewMessages s ++ [channelID0])).
    { intros cap.
      destruct (Messages_fetch cap channelID s) as [[[ms err] s1]| |] eqn:Hrun;
        try discriminate.
      intros [= <- <-].
      destruct (Messages_fetch_frame _ _ _ _ _ Hrun)
        as (cs & ws & Hc & Hw & Hm1 & Hm2 & Hlen & Hfet & Hfew).
      exists cs, ws. repeat split; try done.
      destruct Hfew as [Hfew|Hfew]; [by left|right]. by exists channelID. }
    destruct (Store_Messages channelID (store s)) as [ms [err|]];
      [apply Hfetch|].
    destruct (Store_MaxMessages (store s) <=? len ms);
      [|destruct (isFew channelID (fewMessages s)); [|apply Hfetch]].
    all: intros [= <- <-]; exists [], []; rewrite !app_nil_r;
      repeat split; try done; try (cbn; lia); by left.
Qed.

(** What an accessor sends is bounded, whatever it returns: [Self],
    [Channel], [Channels], [Emoji], [Emojis], [Guild], [Member],
    [Members], [Role] and [Roles] send at most one fetch, [Message] and
    [Messages] at most two; [Guilds] sends nothing but the page requests of
    [api.Guilds], fewer than [MaxFetchGuilds / 100 + 1] of them, so none
    when [MaxFetchGuilds] is 0 and at most one up to 100.  The gateway
    command apart, which only [Members] sends, every call an accessor
    makes is a fetch; and the package variables are not touched. *)
Theorem accessor_fetch_budget a s r s' :
  run a s = Ok (r, s') →
  ∃ cs ws,
    calls s' = calls s ++ cs ∧ writes s' = writes s ++ ws ∧
    match a with
    | A_Guilds =>
        cs = fetches cs ∧
        (uint_range (MaxFetchGuilds s) →
           100 * Z.of_nat (length cs) < MaxFetchGuilds s + 100 ∧
           (MaxFetchGuilds s = 0 → cs = []) ∧
           (MaxFetchGuilds s ≤ 100 → (length cs ≤ 1)%nat))
    | A_Message _ _ | A_Messages _ => (length (fetches cs) ≤ 2)%nat
    | _ => (length (fetches cs) ≤ 1)%nat
    end ∧
    ((∀ guildID, a ≠ A_Members guildID) → fetches cs = cs) ∧
    MaxFetchMembers s' = MaxFetchMembers s ∧
    MaxFetchGuilds s' = MaxFetchGuilds s.
Proof.
  intros Hrun.
  destruct (run_frame a s r s' Hrun)
    as (cs & ws & Hc & Hw & Hm1 & Hm2 & Hcount & Hfet & _).
  exists cs, ws. split; [exact Hc|]. split; [exact Hw|]. split.
  { destruct a; try exact Hcount. split; [done|]. intros Hmax.
    destruct (Guilds_fetch_pages s Hmax) as [Hzero Hpos]. cbn zeta in *.
    cbn [fetch_calls] in Hcount.
    destruct Hcount as [->| ->]; [cbn; destruct Hmax; by repeat split; try lia|].
    destruct (Z.eq_dec (MaxFetchGuilds s) 0) as [Heq|Hne].
    - specialize (Hzero Heq).
      destruct ((Guilds_fetch s).2); [|cbn in Hzero; lia].
      cbn. destruct Hmax. by repeat split; try lia.
    - destruct Hpos as [? ?]; [destruct Hmax; lia|].
      split; [lia|]. split; [done|]. lia. }
  split; [|done].
  intros Hnot. destruct a; try exact Hfet. exfalso. by eapply Hnot.
Qed.

(** The memo of small channels only grows, and only by [Messages]
    appending the channel it was asked for: a channel that is in the memo
    is still in it after any call of any accessor. *)
Theorem memo_only_grows a s r s' :
  run a s = Ok (r, s') →
  (fewMessages s' = fewMessages s ∨
   ∃ channelID, a = A_Messages channelID ∧
                fewMessages s' = fewMessages s ++ [channelID]) ∧
  (∀ channelID, isFew channelID (fewMessages s) = true →
                isFew channelID (fewMessages s') = true).
Proof.
  intros Hrun.
  destruct (run_frame a s r s' Hrun) as (cs & ws & _ & _ & _ & _ & _ & _ & Hfew).
  split; [exact Hfew|].
  intros channelID Hflag.
  destruct Hfew as [->|(ch & _ & ->)]; [done|].
  revert Hflag. generalize (fewMessages s). intros few.
  induction few as [|x few IH]; cbn; [done|].
  destruct (x =? channelID); [done|exact IH].
Qed.


(** *** [Emoji] *)

Lemma Emoji_range_first (emojiID : Snowflake) (es : list discord.Emoji) :
  match Emoji_range emojiID es with
  | Some e => ∃ l1 l2, es = l1 ++ e :: l2 ∧ Emoji_ID e = emojiID ∧
                       Forall (λ x, Emoji_ID x ≠ emojiID) l1
  | None => Forall (λ x, Emoji_ID x ≠ emojiID) es
  end.
Proof.
  induction es as [|x es IH]; cbn; [constructor|].
  destruct (Z.eqb_spec (Emoji_ID x) emojiID) as [Heq|Hne].
  - exists [], es. by repeat split.
  - destruct (Emoji_range emojiID es) as [e|].
    + destruct IH as (l1 & l2 & -> & Hid & Hl1).
      exists (x :: l1), l2. repeat split; [done|]. by constructor.
    + by constructor.
Qed.

(** [Emoji], once the storage failed to answer and the emojis of the guild
    are fetched, asks the storage to set the whole collection and then:
    returns [nil] with the error of that modification when it fails, even
    if the emoji asked for was fetched; returns [ErrStoreNotFound] with
    [nil] when no fetched emoji has the identifier; and otherwise returns
    the first fetched emoji that has it. *)
Theorem Emoji_fill (guildID emojiID : Snowflake) s
    (es : list discord.Emoji) (r1 : ρ) :
  (Store_Emoji guildID emojiID (store s)).2 ≠ None →
  Session_Emojis guildID (session s) = ((es, None), r1) →
  let w := Store_modify (EmojiSet guildID es) (store s) in
  let s' := wrote (EmojiSet guildID es) w.2 (called (Call_Emojis guildID) r1 s) in
  (∀ e, w.1 = Some e → Emoji guildID emojiID s = Ok ((None, Some e), s')) ∧
  (w.1 = None → Forall (λ x, Emoji_ID x ≠ emojiID) es →
     Emoji guildID emojiID s = Ok ((None, Some ErrStoreNotFound), s')) ∧
  (w.1 = None →
     ∀ (l1 : list discord.Emoji) (found : discord.Emoji) (l2 : list discord.Emoji),
       es = l1 ++ found :: l2 → Emoji_ID found = emojiID →
       Forall (λ x, Emoji_ID x ≠ emojiID) l1 →
       Emoji guildID emojiID s = Ok ((Some found, None), s')).
Proof.
  intros Hcold Hfetch w s'. subst w s'.
  unfold Emoji. unfold_steps.
  destruct (Store_Emoji guildID emojiID (store s)) as [e0 [err0|]];
    cbn [fst snd] in *; [|done].
  rewrite Hfetch. reduce.
  pose proof (Emoji_range_first emojiID es) as Hfirst.
  split; [|split].
  - intros e He. by rewrite He.
  - intros Hok Hnone. rewrite Hok.
    destruct (Emoji_range emojiID es) as [e|]; [|done].
    destruct Hfirst as (l1 & l2 & -> & Hid & _).
    apply Forall_app in Hnone as [_ Hnone]. by inversion Hnone.
  - intros Hok l1 found l2 -> Hid Hl1. rewrite Hok.
    destruct (Emoji_range emojiID (l1 ++ found :: l2)) as [e'|].
    + destruct Hfirst as (k1 & k2 & Heq & Hid' & Hk1).
      assert (e' = found); [|by subst].
      clear -Heq Hid Hid' Hl1 Hk1. revert k1 Heq Hk1.
      induction Hl1 as [|x l1 Hx _ IH]; intros k1 Heq Hk1.
      * destruct k1 as [|y k1]; cbn in Heq; [by injection Heq|].
        injection Heq as <- _. by inversion Hk1.
      * destruct k1 as [|y k1]; cbn in Heq.
        { injection Heq as -> _. done. }
        injection Heq as _ Heq. inversion Hk1; subst. by eapply IH.
    + apply Forall_app in Hfirst as [_ Hfirst]. by inversion Hfirst.
Qed.

(** *** [Role] and [Roles] *)

Lemma Role_range_as_range_set (guildID roleID : Snowflake)
    (rs : list discord.Role) (r : option discord.Role) (p : bool) s :
  ∃ res err s',
    Role_range guildID roleID rs r p s = Ok ((res, err), s') ∧
    range_set (RoleSet guildID) rs s = Ok (err, s').
Proof.
  revert r p s. induction rs as [|x rs IH]; intros r p s; cbn; [by eauto|].
  unfold_steps.
  destruct (Store_modify (RoleSet guildID (Some x)) (store s)) as [[e|] st];
    cbn [fst snd]; [by eauto|].
  apply IH.
Qed.

(** From a state where the storage answers neither the role nor the roles
    of the guild, and the fetch of the roles succeeds: [Role] and [Roles]
    end in the same state, with the same error; [Roles] returns the fetched
    roles, whether or not setting them failed; and when every role was set
    and none has the identifier asked for, [Role] returns [nil] with no
    error. *)
Theorem Role_ends_as_Roles (guildID roleID : Snowflake) s
    (rs : list discord.Role) (r1 : ρ) :
  (Store_Role guildID roleID (store s)).2 ≠ None →
  (Store_Roles guildID (store s)).2 ≠ None →
  Session_Roles guildID (session s) = ((rs, None), r1) →
  ∃ res err s',
    Role guildID roleID s = Ok ((res, err), s') ∧
    Roles guildID s = Ok ((rs, err), s') ∧
    (err = None → Forall (λ x, Role_ID x ≠ roleID) rs → res = None).
Proof.
  intros Hrole Hroles Hfetch.
  destruct (Role_range_as_range_set guildID roleID rs None false
              (called (Call_Roles guildID) r1 s))
    as (res & err & s' & Hrun & Hset).
  exists res, err, s'.
  unfold Role, Roles. unfold_steps.
  destruct (Store_Role guildID roleID (store s)) as [r0 [e0|]];
    cbn [fst snd] in *; [|done].
  destruct (Store_Roles guildID (store s)) as [rs0 [e1|]];
    cbn [fst snd] in *; [|done].
  rewrite Hfetch. reduce. rewrite Hset.
  split; [exact Hrun|]. split; [by destruct err|].
  intros -> Hnone. apply Role_range_result in Hrun. rewrite Hrun.
  cbn [orb]. unfold through.
  assert (Hex : existsb (λ x, Role_ID x =? roleID) rs = false).
  { clear -Hnone. induction Hnone as [|x l Hx _ IH]; cbn; [done|].
    destruct (Z.eqb_spec (Role_ID x) roleID); [done|exact IH]. }
  by rewrite Hex.
Qed.

(** *** [Members] *)

(** [Members], once the storage failed to answer and the members are
    fetched: when setting a member fails, it returns [nil] with that error
    and the gateway command is not sent; when every member is set, it sends
    the gateway command, once, and returns the fetched members together
    with whatever error the command gave. *)
Theorem Members_gateway (guildID : Snowflake) s
    (ms : list discord.Member) (r1 : ρ) (werr : option error) (s2 : State σ ρ) :
  (Store_Members guildID (store s)).2 ≠ None →
  Session_Members guildID (MaxFetchMembers s) (session s) = ((ms, None), r1) →
  range_set (MemberSet guildID) ms
            (called (Call_Members guildID (MaxFetchMembers s)) r1 s)
    = Ok (werr, s2) →
  match werr with
  | Some e =>
      Members guildID s = Ok (([], Some e), s2) ∧
      calls s2 = calls s ++ [Call_Members guildID (MaxFetchMembers s)]
  | None =>
      let g := Gateway_RequestGuildMembers guildID (session s2) in
      Members guildID s =
        Ok ((ms, g.1), called (Call_RequestGuildMembers guildID) g.2 s2) ∧
      calls (called (Call_RequestGuildMembers guildID) g.2 s2) =
        calls s ++ [Call_Members guildID (MaxFetchMembers s);
                    Call_RequestGuildMembers guildID]
  end.
Proof.
  intros Hcold Hfetch Hset.
  destruct (range_set_run (MemberSet guildID) ms
              (called (Call_Members guildID (MaxFetchMembers s)) r1 s))
    as (err' & s2' & ws & Hrun & (_ & _ & _ & _ & Hcalls & _) & _).
  rewrite Hset in Hrun. injection Hrun as <- <-.
  cbn [calls called] in Hcalls.
  unfold Members. unfold_steps.
  destruct (Store_Members guildID (store s)) as [ms0 [e0|]];
    cbn [fst snd] in *; [|done].
  rewrite Hfetch. reduce. rewrite Hset.
  destruct werr as [e|]; cbn zeta; unfold_steps.
  - by split.
  - split; [done|]. cbn [calls called]. rewrite Hcalls.
    by rewrite <- (assoc_L (++)).
Qed.

(** *** A value or an error *)

Lemma Messages_fetch_error (cap channelID : Snowflake) s
    (ms : list discord.Message) (e : error) (s' : State σ ρ) :
  Messages_fetch cap channelID s = Ok ((ms, Some e), s') → ms = [].
Proof.
  unfold Messages_fetch. unfold_steps. destruct_call; reduce.
  { by intros [= <- _ _]. }
  destruct (Channel_run channelID (called (Call_Messages channelID 100) ρ0 s))
    as (c & cerr & s2 & ws & HC & _).
  rewrite HC. unfold_steps.
  assert (Hloop : ∀ guildID,
    match Messages_range guildID l s2 with
    | Ok (a, s'0) =>
        match a with
        | (ms0, Some _ as err) => λ s0 : State σ ρ, Ok (([] : list discord.Message, err), s0)
        | (ms0, None) =>
            if len ms0 <? cap
            then λ s0, Ok ((ms0, None), flagged channelID s0)
            else if cap <? 0 then λ _, Panic
                 else λ s0, Ok ((take (Z.to_nat cap) ms0, None), s0)
        end s'0
    | Panic => Panic
    | OutOfFuel => OutOfFuel
    end = Ok ((ms, Some e), s') → ms = []).
  { intros guildID.
    destruct (Messages_range guildID l s2) as [[[out [err|]] s3]| |];
      [by intros [= <- _ _]| |done|done].
    destruct (len out <? cap); [done|]. by destruct (cap <? 0). }
  destruct cerr as [cerr|]; [|destruct c as [c|]]; unfold_steps;
    [apply Hloop|apply Hloop|discriminate].
Qed.

(** [Channels], [Guilds], [Emoji] and [Messages] never return a value
    together with an error: whenever they return an error, the value is
    [nil]. *)
Theorem value_or_error a s r s' :
  drops_value_on_error a = true →
  run a s = Ok (r, s') →
  r.2 ≠ None → r.1 = zero a.
Proof.
  intros Hkind Hrun. revert Hrun.
  destruct a; try discriminate; cbn [run zero].
  1-3: exec; intros Hres; try discriminate; injection Hres as <- <-;
       cbn [fst snd]; done.
  unfold tagged, Messages. unfold_steps.
  assert (Hfetch : ∀ cap,
    match Messages_fetch cap channelID s with
    | Ok (a, s'0) => (let '(a1, err) := a in λ s0, Ok ((VMessages a1, err), s0)) s'0
    | Panic => Panic
    | OutOfFuel => OutOfFuel
    end = Ok (r, s') → r.2 ≠ None → r.1 = VMessages []).
  { intros cap.
    destruct (Messages_fetch cap channelID s) as [[[ms [e|]] s1]| |] eqn:Hrun;
      try discriminate; intros [= <- <-]; cbn [fst snd]; [|done].
    intros _. by rewrite (Messages_fetch_error _ _ _ _ _ _ Hrun). }
  destruct (Store_Messages channelID (store s)) as [ms [err|]]; [apply Hfetch|].
  destruct (Store_MaxMessages (store s) <=? len ms);
    [|destruct (isFew channelID (fewMessages s)); [|apply Hfetch]].
  all: by intros [= <- <-].
Qed.

(** *** [Permissions] *)

(** A lookup by [Self], [Channel], [Guild], [Member] or one of the other
    accessors with a single fetch: at most one call, a fetch, and the memo
    as it was. *)
Lemma single_frame a s r s' :
  match a with
  | A_Guilds | A_Message _ _ | A_Messages _ | A_Members _ => False
  | _ => True
  end →
  run a s = Ok (r, s') →
  ∃ cs ws,
    calls s' = calls s ++ cs ∧ writes s' = writes s ++ ws ∧
    fetches cs = cs ∧ (length cs ≤ 1)%nat ∧
    fewMessages s' = fewMessages s.
Proof.
  intros Hkind Hrun.
  destruct (run_frame a s r s' Hrun)
    as (cs & ws & Hc & Hw & _ & _ & Hone & Hfet & Hfew).
  exists cs, ws. split; [done|]. split; [done|].
  destruct a; try done; rewrite Hfet in Hone;
    (repeat split; [done|done|]);
    by destruct Hfew as [|(? & ? & _)].
Qed.

Section PermissionsProperties.
Variable errors_Wrap : error → string → error.
Variable CalcOverwrites :
  discord.Guild → discord.Channel → discord.Member → Z.

(** [Permissions] looks up the channel, then the guild of the channel,
    then the member of that guild, and stops at the first lookup that
    fails: it then returns 0 with the error of that lookup wrapped under
    the label of the stage ("Failed to get channel", "... guild",
    "... member"), and the lookups after it are not made.  When the three
    succeed it returns what [CalcOverwrites] computes from them, with no
    error.  (A lookup that answers [nil] with no error makes it dereference
    [nil].) *)
Theorem Permissions_stages (channelID userID : Snowflake) s
    (ch : option discord.Channel) (cerr : option error) (s1 : State σ ρ) :
  Channel channelID s = Ok ((ch, cerr), s1) →
  let P := Permissions errors_Wrap CalcOverwrites channelID userID s in
  match cerr, ch with
  | Some e, _ => P = Ok ((0, Some (errors_Wrap e "Failed to get channel")), s1)
  | None, None => P = Panic
  | None, Some ch =>
    ∀ g gerr s2,
      Guild (Channel_GuildID ch) s1 = Ok ((g, gerr), s2) →
      match gerr with
      | Some e => P = Ok ((0, Some (errors_Wrap e "Failed to get guild")), s2)
      | None =>
        ∀ m merr s3,
          Member (Channel_GuildID ch) userID s2 = Ok ((m, merr), s3) →
          match merr, g, m with
          | Some e, _, _ =>
              P = Ok ((0, Some (errors_Wrap e "Failed to get member")), s3)
          | None, Some g, Some m => P = Ok ((CalcOverwrites g ch m, None), s3)
          | None, _, _ => P = Panic
          end
      end
  end.
Proof.
  intros HC P. subst P. unfold Permissions. unfold_steps. rewrite HC.
  unfold_steps. destruct cerr as [e|]; [done|].
  destruct ch as [ch|]; [|done].
  intros g gerr s2 HG. rewrite HG. unfold_steps.
  destruct gerr as [e|]; [done|].
  intros m merr s3 HM. rewrite HM. unfold_steps.
  destruct merr as [e|]; [done|].
  destruct g as [g|]; [|done]. by destruct m.
Qed.

(** Whatever [Permissions] returns, it sent at most three calls, all of
    them fetches, on top of the calls made before, and left the memo of
    small channels as it was. *)
Theorem Permissions_footprint (channelID userID : Snowflake) s
    (r : Z * option error) (s' : State σ ρ) :
  Permissions errors_Wrap CalcOverwrites channelID userID s = Ok (r, s') →
  ∃ cs ws,
    calls s' = calls s ++ cs ∧ writes s' = writes s ++ ws ∧
    fetches cs = cs ∧ (length cs ≤ 3)%nat ∧
    fewMessages s' = fewMessages s.
Proof.
  unfold Permissions. unfold_steps.
  destruct (Channel channelID s) as [[[ch cerr] s1]| |] eqn:HC; try discriminate.
  assert (H1 : run (A_Channel channelID) s = Ok ((VChannel ch, cerr), s1))
    by (cbn [run]; unfold tagged; unfold_steps; by rewrite HC).
  destruct (single_frame (A_Channel channelID) _ _ _ I H1) as (cs1 & ws1 & Hc1 & Hw1 & Hf1 & Hl1 & Hm1).
  unfold_steps. destruct cerr as [e|].
  { intros [= <- <-]. exists cs1, ws1. repeat split; try done. lia. }
  destruct ch as [ch|]; [|discriminate]. unfold_steps.
  destruct (Guild (Channel_GuildID ch) s1) as [[[g gerr] s2]| |] eqn:HG;
    try discriminate.
  assert (H2 : run (A_Guild (Channel_GuildID ch)) s1 = Ok ((VGuild g, gerr), s2))
    by (cbn [run]; unfold tagged; unfold_steps; by rewrite HG).
  destruct (single_frame (A_Guild (Channel_GuildID ch)) _ _ _ I H2) as (cs2 & ws2 & Hc2 & Hw2 & Hf2 & Hl2 & Hm2).
  assert (Hf12 : fetches (cs1 ++ cs2) = cs1 ++ cs2)
    by (by rewrite fetches_app, Hf1, Hf2).
  unfold_steps. destruct gerr as [e|].
  { intros [= <- <-]. exists (cs1 ++ cs2), (ws1 ++ ws2).
    rewrite Hc2, Hw2, Hc1, Hw1, Hm2, Hm1, <- !(assoc_L (++)), length_app.
    repeat split; try done. lia. }
  destruct (Member (Channel_GuildID ch) userID s2) as [[[m merr] s3]| |] eqn:HM;
    try discriminate.
  assert (H3 : run (A_Member (Channel_GuildID ch) userID) s2
               = Ok ((VMember m, merr), s3))
    by (cbn [run]; unfold tagged; unfold_steps; by rewrite HM).
  destruct (single_frame (A_Member (Channel_GuildID ch) userID) _ _ _ I H3) as (cs3 & ws3 & Hc3 & Hw3 & Hf3 & Hl3 & Hm3).
  unfold_steps.
  assert (Hend : s' = s3 →
    ∃ cs ws, calls s' = calls s ++ cs ∧ writes s' = writes s ++ ws ∧
             fetches cs = cs ∧ (length cs ≤ 3)%nat ∧
             fewMessages s' = fewMessages s).
  { intros ->. exists (cs1 ++ cs2 ++ cs3), (ws1 ++ ws2 ++ ws3).
    rewrite Hc3, Hw3, Hc2, Hw2, Hc1, Hw1, Hm3, Hm2, Hm1,
            <- !(assoc_L (++)), !length_app, !fetches_app, Hf1, Hf2, Hf3.
    repeat split; try done. lia. }
  destruct merr as [e|]; [intros [= <- <-]; by apply Hend|].
  destruct g as [g|]; [|discriminate]. destruct m as [m|]; [|discriminate].
  intros [= <- <-]. by apply Hend.
Qed.

(** On a storage that answers the channel, its guild and the member,
    [Permissions] computes the permissions from what the storage answered
    and does nothing else: no call, no modification. *)
Theorem Permissions_warm (channelID userID : Snowflake) s
    (ch : discord.Channel) (g : discord.Guild) (m : discord.Member) :
  Store_Channel channelID (store s) = (Some ch, None) →
  Store_Guild (Channel_GuildID ch) (store s) = (Some g, None) →
  Store_Member (Channel_GuildID ch) userID (store s) = (Some m, None) →
  Permissions errors_Wrap CalcOverwrites channelID userID s
    = Ok ((CalcOverwrites g ch m, None), s).
Proof.
  intros HC HG HM. unfold Permissions, Channel, Guild, Member. unfold_steps.
  rewrite HC. unfold_steps. rewrite HG. unfold_steps. by rewrite HM.
Qed.

End PermissionsProperties.

End Accessors.

(** ** The accessors, run *)

Section Runs.
Import discord state testbed.



Lemma fetch_failure_writes_nothing_witness :
  let a := A_Guild 3 in
  reaches_fetch a unreachable = true ∧
  (fetch a unreachable).1.2 = Some not_found_404 ∧
  ∃ s', run a unreachable = Ok ((VGuild None, Some not_found_404), s') ∧
        store s' = store unreachable ∧ writes s' = [] ∧
        calls s' = [Call_Guild 3].
Proof.
  intros a.
  assert (Hcold : reaches_fetch a unreachable = true) by (vm_compute; reflexivity).
  assert (Hfail : (fetch a unreachable).1.2 = Some not_found_404)
    by (vm_compute; reflexivity).
  split; [exact Hcold|]. split; [exact Hfail|].
  destruct (fetch_failure_writes_nothing a unreachable not_found_404 Hcold Hfail)
    as (s' & Hrun & Hstore & Hwrites & _ & Hcalls).
  exists s'. split; [exact Hrun|]. split; [exact Hstore|].
  split; [exact Hwrites|exact Hcalls].
Defined.

Lemma Messages_memo_witness :
  let stamped := Message_setGuildID 3 <$> history_10 in
  let s2 := state_after (Channel 7)
              (called (Call_Messages 7 100) world knows_channel) in
  let s3 := state_after (Messages_range 3 history_10) s2 in
  Store_MaxMessages (store knows_channel) = 50 ∧ len history_10 = 10 ∧
  Messages 7 knows_channel = Ok ((stamped, None), flagged 7 s3) ∧
  isFew 7 (fewMessages (flagged 7 s3)) = true ∧
  fetches (calls (flagged 7 s3)) = [Call_Messages 7 100] ∧
  writes (flagged 7 s3) = (λ m, MessageSet (Some m)) <$> stamped ∧
  Messages 7 (flagged 7 s3) = Ok ((stamped, None), flagged 7 s3).
Proof.
  intros stamped s2 s3.
  assert (H1 : reaches_fetch (A_Messages 7) knows_channel = true)
    by (vm_compute; reflexivity).
  assert (H2 : Session_Messages 7 100 (session knows_channel)
               = ((history_10, None), world)) by (vm_compute; reflexivity).
  assert (H3 : Channel 7 (called (Call_Messages 7 100) world knows_channel)
               = Ok ((Some general, None), s2)) by (vm_compute; reflexivity).
  assert (H4 : @None error = None → is_Some (Some general))
    by (intros _; by eexists).
  assert (H5 : Messages_range (default 0 (resolved_guild (Some general) None))
                 history_10 s2 = Ok ((stamped, None), s3))
    by (vm_compute; reflexivity).
  destruct (Messages_memo 7 knows_channel history_10 world (Some general) None
              s2 stamped s3 H1 H2 H3 H4 H5)
    as (_ & _ & Hsmall & _ & Hmemo).
  assert (Hlt : len history_10 < Store_MaxMessages (store knows_channel))
    by (vm_compute; reflexivity).
  destruct (Hsmall Hlt) as [Hrun Hflag].
  split; [vm_compute; reflexivity|]. split; [vm_compute; reflexivity|].
  split; [exact Hrun|]. split; [exact Hflag|].
  split; [vm_compute; reflexivity|]. split; [vm_compute; reflexivity|].
  apply Hmemo; [exact Hflag|]. vm_compute. reflexivity.
Defined.

(** C3, as stated, fails on a first call for a channel the storage does
    not have: cap 50, a history of 10 messages, and two fetches. *)
Lemma Messages_first_call_fetches_twice :
  Store_MaxMessages (store cold) = 50 ∧
  (Session_Messages 7 100 (session cold)).1 = (history_10, None) ∧
  len history_10 = 10 ∧
  match Messages 7 cold with
  | Ok (r, s') =>
      r.2 = None ∧ len r.1 = 10 ∧ isFew 7 (fewMessages s') = true ∧
      fetches (calls s') = [Call_Messages 7 100; Call_Channel 7] ∧
      length (fetches (calls s')) ≠ 1%nat
  | _ => False
  end.
Proof. vm_compute. repeat split; discriminate. Qed.

(** C4 fails where the role asked for is not the last one fetched: the
    guild has the roles 1 and 2, role 1 is asked for, and the pointer
    returned reads role 2, while the storage now answers role 1. *)
Lemma Role_returns_another_role :
  (Store_Role 3 1 (store cold)).2 ≠ None ∧
  (Session_Roles 3 (session cold)).1 = ([admin; guest], None) ∧
  Role_ID admin = 1 ∧ Role_ID guest ≠ 1 ∧
  match Role 3 1 cold with
  | Ok ((res, err), s') =>
      res = Some guest ∧ err = None ∧
      writes s' = [RoleSet 3 (Some admin); RoleSet 3 (Some guest)] ∧
      Store_Role 3 1 (store s') = (Some admin, None)
  | _ => False
  end.
Proof. vm_compute. repeat split; discriminate. Qed.

Lemma writeback_failure_returns_value_witness :
  run (A_Channel 7) refusing =
    Ok ((VChannel (Some general), Some read_only),
        state_after (run (A_Channel 7)) refusing) ∧
  Message 7 100 refusing =
    Ok ((Some first_message, Some read_only),
        state_after (Message 7 100) refusing).
Proof.
  destruct (writeback_failure_returns_value refusing) as [Hone Hmsg].
  split.
  - rewrite (Hone (A_Channel 7) (VChannel (Some general)) world
                  (ChannelSet (Some general)) read_only).
    + vm_compute. reflexivity.
    + reflexivity.
    + vm_compute. discriminate.
    + vm_compute. reflexivity.
    + reflexivity.
    + vm_compute. reflexivity.
  - rewrite (Hmsg 7 100 first_message world (Some general) (Some read_only)
                  (state_after (Channel 7) (called (Call_Message 7 100) world refusing))
                  read_only).
    + vm_compute. reflexivity.
    + vm_compute. discriminate.
    + vm_compute. reflexivity.
    + vm_compute. reflexivity.
    + discriminate.
    + vm_compute. reflexivity.
Defined.

Lemma guild_stamping_swallows_lookup_failure_witness :
  let stamped := Message_setGuildID 0 <$> history_10 in
  let s2 := state_after (Channel 7)
              (called (Call_Messages 7 100) hidden_channel no_channel) in
  let s3 := state_after (Messages_range 0 history_10) s2 in
  Message 7 100 no_channel =
    Ok ((Some first_message, None), state_after (Message 7 100) no_channel) ∧
  Message_GuildID first_message = 0 ∧
  writes (state_after (Message 7 100) no_channel)
    = [MessageSet (Some first_message)] ∧
  Messages 7 no_channel = Ok ((stamped, None), flagged 7 s3) ∧
  writes (flagged 7 s3) = (λ m, MessageSet (Some m)) <$> stamped ∧
  Forall (λ m, Message_GuildID m = 0) stamped ∧
  Store_Messages 7 (store (flagged 7 s3)) = (stamped, None).
Proof.
  intros stamped s2 s3.
  destruct (guild_stamping_swallows_lookup_failure 7 100 no_channel)
    as [Hone Hall].
  split; [|split; [reflexivity|split; [vm_compute; reflexivity|]]].
  - rewrite (Hone (Some first_message) hidden_channel None not_found_404
               (state_after (Channel 7)
                  (called (Call_Message 7 100) hidden_channel no_channel))).
    + vm_compute. reflexivity.
    + vm_compute. discriminate.
    + vm_compute. reflexivity.
    + vm_compute. reflexivity.
  - assert (H1 : reaches_fetch (A_Messages 7) no_channel = true)
      by (vm_compute; reflexivity).
    assert (H2 : Session_Messages 7 100 (session no_channel)
                 = ((history_10, None), hidden_channel))
      by (vm_compute; reflexivity).
    assert (H3 : Channel 7 (called (Call_Messages 7 100) hidden_channel no_channel)
                 = Ok ((None, Some not_found_404), s2))
      by (vm_compute; reflexivity).
    assert (H4 : Messages_range 0 history_10 s2 = Ok ((stamped, None), s3))
      by (vm_compute; reflexivity).
    assert (H5 : 0 ≤ Store_MaxMessages (store no_channel))
      by (vm_compute; discriminate).
    assert (Hlt : (len history_10 <? Store_MaxMessages (store no_channel)) = true)
      by (vm_compute; reflexivity).
    destruct (Hall history_10 hidden_channel None not_found_404 s2 stamped s3
                H1 H2 H3 H4 H5) as (Hrun & _ & Hwrites & Hzero).
    rewrite Hlt in Hrun, Hwrites, Hzero.
    split; [exact Hrun|]. split; [vm_compute; reflexivity|].
    split; [exact Hzero|]. vm_compute. reflexivity.
Defined.

Lemma cosmetic_helpers_witness :
  AuthorDisplayName nonzero first_message cold = Ok ("ann"%string, cold) ∧
  AuthorColor nonzero grey top_role_colour first_message cold = Ok (grey, cold) ∧
  MemberDisplayName 3 11 unreachable =
    Ok ((EmptyString, Some not_found_404), state_after (Member 3 11) unreachable) ∧
  MemberColor grey top_role_colour 3 11 unreachable =
    Ok (grey, state_after (Member 3 11) unreachable) ∧
  MemberDisplayName 3 11 cold =
    Ok (("ann"%string, None), state_after (Member 3 11) cold).
Proof.
  destruct (cosmetic_helpers nonzero grey top_role_colour first_message 3 11 cold)
    as (Hinvalid & _ & Hcold).
  destruct (cosmetic_helpers nonzero grey top_role_colour first_message 3 11
              unreachable) as (_ & _ & Hdown).
  destruct (Hinvalid eq_refl) as [Hname Hcolour].
  split; [exact Hname|]. split; [exact Hcolour|].
  specialize (Hdown None (Some not_found_404) (state_after (Member 3 11) unreachable)).
  destruct Hdown as [Hdn Hdc]; [vm_compute; reflexivity|].
  split; [exact Hdn|]. split; [exact Hdc|].
  specialize (Hcold (Some (mkMember ann "")) None (state_after (Member 3 11) cold)).
  destruct Hcold as (Hnick & _ & _); [vm_compute; reflexivity|].
  apply Hnick. reflexivity.
Defined.

(** C7, as stated, fails for [MemberDisplayName]: when the lookup of the
    member fails it returns an error, and no name.  And where the member has
    no nickname, [AuthorDisplayName] returns the username the member
    carries, which need not be the one the message carries. *)
Lemma MemberDisplayName_returns_error :
  match Member 3 11 unreachable, MemberDisplayName 3 11 unreachable with
  | Ok ((_, lookup_err), _), Ok ((name, err), _) =>
      lookup_err = Some not_found_404 ∧
      name = EmptyString ∧ err = Some not_found_404 ∧ err ≠ None
  | _, _ => False
  end ∧
  match AuthorDisplayName nonzero guild_message renamed with
  | Ok (name, _) =>
      name = "ann_old"%string ∧
      name ≠ User_Username (Message_Author guild_message)
  | _ => False
  end.
Proof. vm_compute. repeat split; discriminate. Qed.

Lemma accessor_fetch_budget_witness :
  let s1 := state_after (run A_Guilds) raised in
  run A_Guilds raised = Ok ((VGuilds guilds_250, None), s1) ∧
  uint_range (MaxFetchGuilds raised) ∧
  ∃ cs, calls s1 = cs ∧ cs = fetches cs ∧
        100 * Z.of_nat (length cs) < MaxFetchGuilds raised + 100 ∧
        length cs = 3%nat.
Proof.
  intros s1.
  assert (Hrun : run A_Guilds raised = Ok ((VGuilds guilds_250, None), s1))
    by (vm_compute; reflexivity).
  assert (Hrange : uint_range (MaxFetchGuilds raised))
    by (unfold uint_range; cbn; lia).
  split; [exact Hrun|]. split; [exact Hrange|].
  destruct (accessor_fetch_budget A_Guilds raised _ s1 Hrun)
    as (cs & ws & Hc & _ & (Hfet & Hcount) & _).
  destruct (Hcount Hrange) as (Hlen & _).
  exists cs. split; [exact Hc|]. split; [exact Hfet|]. split; [exact Hlen|].
  assert (Hcalls : length (calls s1) = 3%nat) by (vm_compute; reflexivity).
  rewrite Hc in Hcalls. exact Hcalls.
Defined.

Lemma memo_only_grows_witness :
  let a := A_Messages 7 in
  let s1 := state_after (run a) cold in
  run a cold = Ok ((VMessages (Message_setGuildID 3 <$> history_10), None), s1) ∧
  (fewMessages s1 = fewMessages cold ∨
   ∃ channelID, a = A_Messages channelID ∧
                fewMessages s1 = fewMessages cold ++ [channelID]).
Proof.
  intros a s1.
  assert (Hrun : run a cold
                 = Ok ((VMessages (Message_setGuildID 3 <$> history_10), None), s1))
    by (vm_compute; reflexivity).
  split; [exact Hrun|].
  exact (proj1 (memo_only_grows a cold _ s1 Hrun)).
Defined.

Lemma Emoji_fill_witness :
  let es := [mkEmoji 5 "smile"] in
  let w := Store_modify (EmojiSet 3 es) (store cold) in
  let s' := wrote (EmojiSet 3 es) w.2 (called (Call_Emojis 3) world cold) in
  Emoji 3 5 cold = Ok ((Some (mkEmoji 5 "smile"), None), s') ∧
  Emoji 3 6 cold = Ok ((None, Some ErrStoreNotFound), s').
Proof.
  intros es w s'.
  assert (H5 : (Store_Emoji 3 5 (store cold)).2 ≠ None) by (vm_compute; discriminate).
  assert (H6 : (Store_Emoji 3 6 (store cold)).2 ≠ None) by (vm_compute; discriminate).
  assert (Hfetch : Session_Emojis 3 (session cold) = ((es, None), world))
    by (vm_compute; reflexivity).
  assert (Hok : w.1 = None) by (vm_compute; reflexivity).
  split.
  - destruct (Emoji_fill 3 5 cold es world H5 Hfetch) as (_ & _ & Hfound).
    apply (Hfound Hok [] (mkEmoji 5 "smile") []); [reflexivity|reflexivity|constructor].
  - destruct (Emoji_fill 3 6 cold es world H6 Hfetch) as (_ & Habsent & _).
    apply (Habsent Hok). repeat constructor. cbn. discriminate.
Defined.

Lemma Role_ends_as_Roles_witness :
  ∃ err s',
    Role 3 9 cold = Ok ((None, err), s') ∧
    Roles 3 cold = Ok (([admin; guest], err), s').
Proof.
  assert (H1 : (Store_Role 3 9 (store cold)).2 ≠ None) by (vm_compute; discriminate).
  assert (H2 : (Store_Roles 3 (store cold)).2 ≠ None) by (vm_compute; discriminate).
  assert (H3 : Session_Roles 3 (session cold) = (([admin; guest], None), world))
    by (vm_compute; reflexivity).
  destruct (Role_ends_as_Roles 3 9 cold [admin; guest] world H1 H2 H3)
    as (res & err & s' & Hrole & Hroles & Hnil).
  assert (Herr : err = None).
  { assert (Hrun : Roles 3 cold
                   = Ok (([admin; guest], None), state_after (Roles 3) cold))
      by (vm_compute; reflexivity).
    rewrite Hrun in Hroles. by injection Hroles as <- _. }
  exists err, s'. split; [|exact Hroles].
  rewrite <- (Hnil Herr); [exact Hrole|].
  repeat constructor; cbn; discriminate.
Defined.

Lemma Members_gateway_witness :
  let fetched := called (Call_Members 3 1000) world cold in
  let s2 := state_after (range_set (MemberSet 3) [mkMember ann ""]) fetched in
  Members 3 cold =
    Ok (([mkMember ann ""], None), called (Call_RequestGuildMembers 3) world s2) ∧
  calls (called (Call_RequestGuildMembers 3) world s2) =
    [Call_Members 3 1000; Call_RequestGuildMembers 3].
Proof.
  intros fetched s2.
  assert (H1 : (Store_Members 3 (store cold)).2 ≠ None) by (vm_compute; discriminate).
  assert (H2 : Session_Members 3 (MaxFetchMembers cold) (session cold)
               = (([mkMember ann ""], None), world)) by (vm_compute; reflexivity).
  assert (H3 : range_set (MemberSet 3) [mkMember ann ""]
                 (called (Call_Members 3 (MaxFetchMembers cold)) world cold)
               = Ok (None, s2)) by (vm_compute; reflexivity).
  exact (Members_gateway 3 cold [mkMember ann ""] world None s2 H1 H2 H3).
Defined.

Lemma value_or_error_witness :
  let a := A_Emoji 3 6 in
  let s1 := state_after (run a) cold in
  run a cold = Ok ((VEmoji None, Some ErrStoreNotFound), s1) ∧
  (VEmoji None, Some ErrStoreNotFound).1 = zero a.
Proof.
  intros a s1.
  assert (Hrun : run a cold = Ok ((VEmoji None, Some ErrStoreNotFound), s1))
    by (vm_compute; reflexivity).
  split; [exact Hrun|].
  apply (value_or_error a cold _ s1 eq_refl Hrun). discriminate.
Defined.

Lemma Permissions_stages_witness :
  let s1 := state_after (Channel 7) unreachable in
  Channel 7 unreachable = Ok ((None, Some not_found_404), s1) ∧
  Permissions wrap all_permissions 7 11 unreachable =
    Ok ((0, Some (errors_New "Failed to get channel: 404 Not Found")), s1).
Proof.
  intros s1.
  assert (HC : Channel 7 unreachable = Ok ((None, Some not_found_404), s1))
    by (vm_compute; reflexivity).
  split; [exact HC|].
  exact (Permissions_stages wrap all_permissions 7 11 unreachable _ _ s1 HC).
Defined.

Lemma Permissions_footprint_witness :
  let s1 := state_after (Permissions wrap all_permissions 7 11) cold in
  Permissions wrap all_permissions 7 11 cold = Ok ((8, None), s1) ∧
  ∃ cs, calls s1 = cs ∧ fetches cs = cs ∧ (length cs ≤ 3)%nat.
Proof.
  intros s1.
  assert (Hrun : Permissions wrap all_permissions 7 11 cold = Ok ((8, None), s1))
    by (vm_compute; reflexivity).
  split; [exact Hrun|].
  destruct (Permissions_footprint wrap all_permissions 7 11 cold _ s1 Hrun)
    as (cs & ws & Hc & _ & Hfet & Hlen & _).
  exists cs. split; [exact Hc|]. split; [exact Hfet|exact Hlen].
Defined.

Lemma Permissions_warm_witness :
  Permissions wrap all_permissions 7 11 warm = Ok ((8, None), warm).
Proof.
  apply (Permissions_warm wrap all_permissions 7 11 warm general home
           (mkMember ann "")); vm_compute; reflexivity.
Defined.

End Runs.
